(** * Substitution ciphers over a user-supplied alphabet (ciphers.py)

    A shallow embedding of the cipher engine: the alphabet loader
    [read_alphabet], the validator [validate_text] and the three ciphers
    [caesar_cipher], [vigenere_cipher] and [atbash_cipher], followed by the
    properties of the specification proved (or refuted) on that embedding.

    Python values are modelled as follows.
    - [str] is a sequence of Unicode code points: [list N].
    - [int] is unbounded: [Z]; [%] with a positive divisor is [Z.modulo].
    - A raised exception is a pair of its class and its message; a call either
      returns a value or raises: the [result] monad.
    - The file system is a finite map from paths to (decoded) file contents. *)

From Stdlib Require Import ZArith List Ascii String Lia.
From stdpp Require Import base decidable numbers option list gmap strings.

Open Scope Z_scope.

(** ** Strings *)

Abbreviation char := N (only parsing).
Abbreviation str := (list N) (only parsing).

Definition space : char := 32%N.

(** An ASCII literal as a Python string. *)
Definition lit (s : string) : str :=
  map N_of_ascii (list_ascii_of_string s).

(** [len(s)] *)
Definition len (s : str) : Z := Z.of_nat (length s).

(** ** Exceptions

    [AlphabetError] is a subclass of [CipherError]; the other classes are
    built-ins. *)

Inductive exc_class : Type :=
  | FileNotFoundError
  | CipherError
  | AlphabetError
  | ValueError
  | ZeroDivisionError
  | IndexError.

(** The messages of ciphers.py, by the place that builds them:
    - [msg_file_not_found p]: "Файл с алфавитом не найден: {p}"
    - [msg_empty_alphabet]:   "Алфавит не может быть пустым"
    - [msg_duplicates]:       "Алфавит содержит повторяющиеся символы"
    - [msg_char_not_found c]: "Символ '{c}' не найден в алфавите"
    - [msg_empty_key]:        "Ключ не может быть пустым"
    - [msg_builtin]:          the interpreter's own text. *)
Inductive message : Type :=
  | msg_file_not_found (filepath : string)
  | msg_empty_alphabet
  | msg_duplicates
  | msg_char_not_found (c : char)
  | msg_empty_key
  | msg_builtin.

Definition exception : Type := exc_class * message.

(** [issubclass(c, d)] on the classes above. *)
Definition issubclass (c d : exc_class) : bool :=
  match c, d with
  | FileNotFoundError, FileNotFoundError
  | CipherError, CipherError
  | AlphabetError, AlphabetError
  | AlphabetError, CipherError
  | ValueError, ValueError
  | ZeroDivisionError, ZeroDivisionError
  | IndexError, IndexError => true
  | _, _ => false
  end.

Inductive result (A : Type) : Type :=
  | Return (a : A)
  | Raise (e : exception).

Arguments Return {A} a.
Arguments Raise {A} e.

#[global] Instance result_ret : MRet result := @Return.
#[global] Instance result_bind : MBind result := fun A B f m =>
  match m with
  | Return a => f a
  | Raise e => Raise e
  end.

(** The class of the exception a call ends with, if it raises. *)
Definition raised {A : Type} (r : result A) : option exc_class :=
  match r with
  | Return _ => None
  | Raise e => Some (fst e)
  end.

(** ** Built-in operations used by the module *)

(** [a % n] on integers. *)
Definition py_mod (a n : Z) : result Z :=
  if decide (n = 0) then Raise (ZeroDivisionError, msg_builtin)
  else Return (a mod n).

(** [s.index(c)]: the lowest position of [c], [ValueError] if there is none. *)
Fixpoint str_index (s : str) (c : char) : result Z :=
  match s with
  | [] => Raise (ValueError, msg_builtin)
  | x :: s' =>
      if decide (x = c) then Return 0
      else i ← str_index s' c; Return (1 + i)
  end.

(** [s[i]], negative positions counting from the end. *)
Definition str_getitem (s : str) (i : Z) : result char :=
  let j := if decide (i < 0) then i + len s else i in
  if decide (0 ≤ j) then
    match s !! Z.to_nat j with
    | Some c => Return c
    | None => Raise (IndexError, msg_builtin)
    end
  else Raise (IndexError, msg_builtin).

(** [c.isspace()] for a single code point (the Unicode white space set that
    [str.strip()] removes). *)
Definition isspace (c : char) : bool :=
  ((9 <=? c) && (c <=? 13) || (28 <=? c) && (c <=? 32)
   || (c =? 133) || (c =? 160) || (c =? 5760)
   || (8192 <=? c) && (c <=? 8202)
   || (c =? 8232) || (c =? 8233) || (c =? 8239) || (c =? 8287)
   || (c =? 12288))%N.

Fixpoint lstrip (s : str) : str :=
  match s with
  | [] => []
  | c :: s' => if isspace c then lstrip s' else s
  end.

Definition rstrip (s : str) : str := reverse (lstrip (reverse s)).

(** [s.strip()] *)
Definition strip (s : str) : str := rstrip (lstrip s).

(** [s.replace(' ', '')] *)
Definition remove_spaces (s : str) : str :=
  filter (λ c, c ≠ space) s.

(** ** read_alphabet

    [open(filepath, 'r', encoding='utf-8')] followed by [f.read()]: the file
    system maps the paths that exist to their decoded text. *)

Definition read_alphabet (fs : gmap string str) (filepath : string)
    : result str :=
  match fs !! filepath with
  | None => Raise (FileNotFoundError, msg_file_not_found filepath)
  | Some content =>
      let alphabet := strip content in
      if decide (alphabet = []) then
        Raise (AlphabetError, msg_empty_alphabet)
      else if decide (length alphabet
                      ≠ size (list_to_set alphabet : gset char)) then
        Raise (AlphabetError, msg_duplicates)
      else Return alphabet
  end.

(** ** validate_text *)

Fixpoint validate_text (text alphabet : str) : result unit :=
  match text with
  | [] => Return tt
  | c :: rest =>
      if decide ((c ∉ alphabet) ∧ (c ≠ space)) then
        Raise (AlphabetError, msg_char_not_found c)
      else validate_text rest alphabet
  end.

(** ** caesar_cipher *)

Definition caesar_new_idx (idx key n : Z) (encrypt : bool) : result Z :=
  if encrypt then py_mod (idx + key) n else py_mod (idx - key) n.

(** The body of the [for char in text] loop; [acc] is the list [result]. *)
Fixpoint caesar_loop (text : str) (key : Z) (alphabet : str) (encrypt : bool)
    (n : Z) (acc : str) : result str :=
  match text with
  | [] => Return acc
  | c :: rest =>
      if decide (c = space) then
        caesar_loop rest key alphabet encrypt n (acc ++ [space])
      else
        idx ← str_index alphabet c;
        new_idx ← caesar_new_idx idx key n encrypt;
        out ← str_getitem alphabet new_idx;
        caesar_loop rest key alphabet encrypt n (acc ++ [out])
  end.

Definition caesar_cipher (text : str) (key : Z) (alphabet : str)
    (encrypt : bool) : result str :=
  _ ← validate_text text alphabet;
  let n := len alphabet in
  caesar_loop text key alphabet encrypt n [].

(** ** vigenere_cipher *)

(** The body of [for i, char in enumerate(text)]; [key] is the key after
    [key.replace(' ', '')]. *)
Fixpoint vigenere_loop (i : Z) (text key alphabet : str) (encrypt : bool)
    (n : Z) (acc : str) : result str :=
  match text with
  | [] => Return acc
  | c :: rest =>
      if decide (c = space) then
        vigenere_loop (i + 1) rest key alphabet encrypt n (acc ++ [space])
      else
        text_idx ← str_index alphabet c;
        j ← py_mod i (len key);
        k ← str_getitem key j;
        key_idx ← str_index alphabet k;
        new_idx ← (if encrypt then py_mod (text_idx + key_idx) n
                   else py_mod (text_idx - key_idx) n);
        out ← str_getitem alphabet new_idx;
        vigenere_loop (i + 1) rest key alphabet encrypt n (acc ++ [out])
  end.

Definition vigenere_cipher (text key alphabet : str) (encrypt : bool)
    : result str :=
  _ ← validate_text text alphabet;
  _ ← validate_text key alphabet;
  if decide (key = []) then Raise (CipherError, msg_empty_key)
  else
    let n := len alphabet in
    let key := remove_spaces key in
    vigenere_loop 0 text key alphabet encrypt n [].

(** ** atbash_cipher *)

Fixpoint atbash_loop (text alphabet reversed_alphabet : str) (acc : str)
    : result str :=
  match text with
  | [] => Return acc
  | c :: rest =>
      if decide (c = space) then
        atbash_loop rest alphabet reversed_alphabet (acc ++ [space])
      else
        idx ← str_index alphabet c;
        out ← str_getitem reversed_alphabet idx;
        atbash_loop rest alphabet reversed_alphabet (acc ++ [out])
  end.

(** The flag [encrypt] is accepted and not used. *)
Definition atbash_cipher (text alphabet : str) (encrypt : bool) : result str :=
  _ ← validate_text text alphabet;
  let reversed_alphabet := reverse alphabet in
  atbash_loop text alphabet reversed_alphabet [].

(** ** The common shape of the three loops

    Each loop copies a space and replaces any other character by the outcome
    of a step, which for Vigenere depends on the position [i]. The loops
    above are instances of [translate] (lemmas [caesar_loop_translate],
    [vigenere_loop_translate], [atbash_loop_translate]). *)

Fixpoint translate (step : Z → char → result char) (i : Z) (text acc : str)
    : result str :=
  match text with
  | [] => Return acc
  | c :: rest =>
      if decide (c = space) then translate step (i + 1) rest (acc ++ [space])
      else out ← step i c; translate step (i + 1) rest (acc ++ [out])
  end.

Definition caesar_step (key : Z) (alphabet : str) (encrypt : bool) (n : Z)
    (i : Z) (c : char) : result char :=
  idx ← str_index alphabet c;
  new_idx ← caesar_new_idx idx key n encrypt;
  str_getitem alphabet new_idx.

Definition vigenere_step (key alphabet : str) (encrypt : bool) (n : Z)
    (i : Z) (c : char) : result char :=
  text_idx ← str_index alphabet c;
  j ← py_mod i (len key);
  k ← str_getitem key j;
  key_idx ← str_index alphabet k;
  new_idx ← (if encrypt then py_mod (text_idx + key_idx) n
             else py_mod (text_idx - key_idx) n);
  str_getitem alphabet new_idx.

Definition atbash_step (alphabet reversed_alphabet : str)
    (i : Z) (c : char) : result char :=
  idx ← str_index alphabet c;
  str_getitem reversed_alphabet idx.

(** What a successful run of [translate] produces, position by position. *)
Definition outcome (step : Z → char → result char) (i : Z) (c : char)
    : char :=
  match step i c with
  | Return d => d
  | Raise _ => c
  end.

Fixpoint translated (g : Z → char → char) (i : Z) (text : str) : str :=
  match text with
  | [] => []
  | c :: rest =>
      (if decide (c = space) then space else g i c)
      :: translated g (i + 1) rest
  end.

(** A text all of whose characters are in the alphabet or are spaces. *)
Definition valid_text (text alphabet : str) : Prop :=
  Forall (λ c, c ∈ alphabet ∨ c = space) text.

(** The output [out] has the shape of [text]: the same length, spaces at the
    same positions, every other character in the alphabet. *)
Definition same_shape (text out alphabet : str) : Prop :=
  length out = length text
  ∧ (∀ p : nat, out !! p = Some space ↔ text !! p = Some space)
  ∧ Forall (λ d, d ≠ space → d ∈ alphabet) out.

(** ** The data of test_ciphers.py

    The alphabet of the tests, "абвгдеёжзийклмнопрстуфхцчшщъыьэюя", and the
    texts "привет мир", "программирование" and "ключ", as code points. *)

Definition test_alphabet : str :=
  [1072; 1073; 1074; 1075; 1076; 1077; 1105; 1078; 1079; 1080; 1081; 1082;
   1083; 1084; 1085; 1086; 1087; 1088; 1089; 1090; 1091; 1092; 1093; 1094;
   1095; 1096; 1097; 1098; 1099; 1100; 1101; 1102; 1103]%N.

Definition privet_mir : str :=
  [1087; 1088; 1080; 1074; 1077; 1090; 32; 1084; 1080; 1088]%N.

Definition programmirovanie : str :=
  [1087; 1088; 1086; 1075; 1088; 1072; 1084; 1084; 1080; 1088; 1086; 1074;
   1072; 1085; 1080; 1077]%N.

Definition klyuch : str := [1082; 1083; 1102; 1095]%N.

(** ** The console helpers of main.py

    The standard input is the list of the lines still to be read, each
    without its newline. A helper maps it to what it prints, in order, and to
    its return value with the lines left over, or to [None] when [input()]
    finds no line and raises [EOFError], which no helper catches.

    What is printed, by the statement that prints it:
    - [prompt_alphabet_file]: input("Введите путь к файлу с алфавитом: ")
    - [err_file_missing p]:
        print(f"Ошибка: файл '{p}' не найден. Попробуйте снова.")
    - [menu_title], [menu_caesar], [menu_vigenere], [menu_atbash],
      [menu_exit]: the five lines of the menu of [select_cipher]
    - [prompt_choice]:     input("Ваш выбор (1-4): ")
    - [err_choice_range]:  print("Ошибка: введите число от 1 до 4")
    - [err_choice_number]: print("Ошибка: введите число")
    - [prompt_operation]:
        input("Выберите операцию (1 - шифровать, 2 - дешифровать): ")
    - [err_operation]:     print("Ошибка: введите 1 или 2")
    - [prompt_key_int]:    input("Введите ключ (целое число): ")
    - [err_key_int]:       print("Ошибка: ключ должен быть целым числом")
    - [prompt_key_str e]:  input(f"Введите ключ для {action}: "), the action
                           being "шифрования" if [e] else "дешифрования"
    - [err_key_empty]:     print("Ошибка: ключ не может быть пустым")
    - [prompt_text]:       input("Введите текст: ")
    - [err_text_empty]:    print("Ошибка: текст не может быть пустым") *)

Inductive printed : Type :=
  | prompt_alphabet_file
  | err_file_missing (filepath : str)
  | menu_title
  | menu_caesar
  | menu_vigenere
  | menu_atbash
  | menu_exit
  | prompt_choice
  | err_choice_range
  | err_choice_number
  | prompt_operation
  | err_operation
  | prompt_key_int
  | err_key_int
  | prompt_key_str (encrypt : bool)
  | err_key_empty
  | prompt_text
  | err_text_empty.

(** The value [get_key] returns: an [int], a [str] or [None]. *)
Inductive key_value : Type :=
  | KeyInt (k : Z)
  | KeyStr (s : str)
  | KeyNone.

Section console.

(** [int(s)] on a string, [None] when it raises [ValueError], and
    [os.path.exists]: the helpers are modelled for every behaviour of the
    two. *)
Variable py_int : str → option Z.
Variable path_exists : str → bool.

Fixpoint get_alphabet_file (stdin : list str)
    : list printed * option (str * list str) :=
  match stdin with
  | [] => ([prompt_alphabet_file], None)
  | line :: rest =>
      let filepath := strip line in
      if path_exists filepath then
        ([prompt_alphabet_file], Some (filepath, rest))
      else
        let '(out, r) := get_alphabet_file rest in
        (prompt_alphabet_file :: err_file_missing filepath :: out, r)
  end.

(** The [while True] loop of [select_cipher]. *)
Fixpoint select_cipher_loop (stdin : list str)
    : list printed * option (Z * list str) :=
  match stdin with
  | [] => ([prompt_choice], None)
  | line :: rest =>
      match py_int line with
      | Some choice =>
          if decide (1 ≤ choice ≤ 4) then
            ([prompt_choice], Some (choice, rest))
          else
            let '(out, r) := select_cipher_loop rest in
            (prompt_choice :: err_choice_range :: out, r)
      | None =>
          let '(out, r) := select_cipher_loop rest in
          (prompt_choice :: err_choice_number :: out, r)
      end
  end.

Definition select_cipher (stdin : list str)
    : list printed * option (Z * list str) :=
  let '(out, r) := select_cipher_loop stdin in
  ([menu_title; menu_caesar; menu_vigenere; menu_atbash; menu_exit] ++ out, r).

Fixpoint get_operation (stdin : list str)
    : list printed * option (bool * list str) :=
  match stdin with
  | [] => ([prompt_operation], None)
  | line :: rest =>
      let op := strip line in
      if decide (op = lit "1") then ([prompt_operation], Some (true, rest))
      else if decide (op = lit "2") then
        ([prompt_operation], Some (false, rest))
      else
        let '(out, r) := get_operation rest in
        (prompt_operation :: err_operation :: out, r)
  end.

(** The loop of [get_key] for [cipher_type == 1]. *)
Fixpoint get_key_int (stdin : list str)
    : list printed * option (key_value * list str) :=
  match stdin with
  | [] => ([prompt_key_int], None)
  | line :: rest =>
      match py_int line with
      | Some key => ([prompt_key_int], Some (KeyInt key, rest))
      | None =>
          let '(out, r) := get_key_int rest in
          (prompt_key_int :: err_key_int :: out, r)
      end
  end.

(** The loop of [get_key] for [cipher_type == 2]. *)
Fixpoint get_key_str (encrypt : bool) (stdin : list str)
    : list printed * option (key_value * list str) :=
  match stdin with
  | [] => ([prompt_key_str encrypt], None)
  | line :: rest =>
      let key := strip line in
      if decide (key ≠ []) then
        ([prompt_key_str encrypt], Some (KeyStr key, rest))
      else
        let '(out, r) := get_key_str encrypt rest in
        (prompt_key_str encrypt :: err_key_empty :: out, r)
  end.

Definition get_key (cipher_type : Z) (encrypt : bool) (stdin : list str)
    : list printed * option (key_value * list str) :=
  if decide (cipher_type = 1) then get_key_int stdin
  else if decide (cipher_type = 2) then get_key_str encrypt stdin
  else if decide (cipher_type = 3) then ([], Some (KeyNone, stdin))
  else ([], Some (KeyNone, stdin)).

Fixpoint get_text (stdin : list str)
    : list printed * option (str * list str) :=
  match stdin with
  | [] => ([prompt_text], None)
  | line :: rest =>
      let text := strip line in
      if decide (text ≠ []) then ([prompt_text], Some (text, rest))
      else
        let '(out, r) := get_text rest in
        (prompt_text :: err_text_empty :: out, r)
  end.

End console.

(** A line that [strip] empties. *)
Definition blank (line : str) : Prop := strip line = [].

(** * Properties *)

(** ** The model on the tests of the repository and the scenarios of the
    specification *)

Example test_caesar_cipher_with_spaces :
  caesar_cipher privet_mir 5 test_alphabet true
  = Return [1092; 1093; 1085; 1078; 1081; 1095; 32; 1089; 1085; 1093]%N
  ∧ caesar_cipher [1092; 1093; 1085; 1078; 1081; 1095; 32; 1089; 1085; 1093]%N
      5 test_alphabet false
    = Return privet_mir.
Proof. split; by vm_compute. Qed.

Example test_vigenere_cipher_encrypt_decrypt :
  ∃ encrypted,
    vigenere_cipher programmirovanie klyuch test_alphabet true
    = Return encrypted
    ∧ vigenere_cipher encrypted klyuch test_alphabet false
      = Return programmirovanie.
Proof. eexists. split; by vm_compute. Qed.

Example test_vigenere_cipher_invalid_key :
  vigenere_cipher privet_mir (lit "key") test_alphabet true
  = Raise (AlphabetError, msg_char_not_found (N_of_ascii "k")).
Proof. by vm_compute. Qed.

Example test_caesar_cipher_invalid_text :
  caesar_cipher (lit "hello") 1 test_alphabet true
  = Raise (AlphabetError, msg_char_not_found (N_of_ascii "h")).
Proof. by vm_compute. Qed.

Example scenario_caesar_ace :
  caesar_cipher (lit "ace") 2 (lit "abcdef") true = Return (lit "cea")
  ∧ caesar_cipher (lit "cea") 2 (lit "abcdef") false = Return (lit "ace").
Proof. split; by vm_compute. Qed.

Example scenario_atbash :
  atbash_cipher (lit "ab cd") (lit "abcdef") true = Return (lit "fe dc").
Proof. by vm_compute. Qed.

(** ** The error monad *)

Lemma bind_Return {A B : Type} (a : A) (f : A → result B) :
  (Return a ≫= f) = f a.
Proof. reflexivity. Qed.

(** ** Built-ins *)

Lemma len_pos (s : str) : s ≠ [] → 0 < len s.
Proof. destruct s; [done | unfold len; simpl; lia]. Qed.

Lemma py_mod_pos (a n : Z) : 0 < n → py_mod a n = Return (a mod n).
Proof. intros Hn. unfold py_mod. case_decide; [lia | done]. Qed.

Lemma str_index_elem (s : str) (c : char) :
  c ∈ s → ∃ k : nat, s !! k = Some c ∧ str_index s c = Return (Z.of_nat k).
Proof.
  induction s as [|x s IH]; intros Hc.
  - by apply not_elem_of_nil in Hc.
  - simpl. case_decide as Hx.
    + exists 0%nat. by subst.
    + apply elem_of_cons in Hc as [-> | Hc]; [done |].
      destruct (IH Hc) as (k & Hk & ->).
      exists (S k). split; [done |].
      rewrite bind_Return. f_equal. lia.
Qed.

Lemma str_index_lookup (s : str) (k : nat) (c : char) :
  NoDup s → s !! k = Some c → str_index s c = Return (Z.of_nat k).
Proof.
  intros Hnd Hk.
  destruct (str_index_elem s c) as (k' & Hk' & ->).
  - by eapply list_elem_of_lookup_2.
  - by rewrite (NoDup_lookup s k' k c Hnd Hk' Hk).
Qed.

Lemma str_getitem_lookup (s : str) (i : Z) :
  0 ≤ i < len s →
  ∃ d, s !! Z.to_nat i = Some d ∧ str_getitem s i = Return d.
Proof.
  intros Hi. unfold str_getitem.
  rewrite (decide_False (P := i < 0)) by lia.
  rewrite (decide_True (P := 0 ≤ i)) by lia.
  destruct (lookup_lt_is_Some_2 s (Z.to_nat i)) as [d Hd].
  - unfold len in Hi. lia.
  - exists d. split; [done |]. cbv zeta. by rewrite Hd.
Qed.

Lemma lookup_len (s : str) (k : nat) (c : char) :
  s !! k = Some c → 0 ≤ Z.of_nat k < len s.
Proof. intros H%lookup_lt_Some. unfold len. lia. Qed.

(** ** validate_text *)

Lemma validate_text_valid (text alphabet : str) :
  validate_text text alphabet = Return tt ↔ valid_text text alphabet.
Proof.
  unfold valid_text. induction text as [|c rest IH]; simpl.
  - split; [by constructor | done].
  - case_decide as Hc.
    + split; [done |]. intros H%Forall_cons_1. tauto.
    + rewrite IH, Forall_cons. split; [| tauto].
      intros Hrest. split; [| done].
      destruct (decide (c ∈ alphabet)); [by left |].
      destruct (decide (c = space)); [by right | tauto].
Qed.

Lemma validate_text_first_offender (pre post alphabet : str) (c : char) :
  valid_text pre alphabet → c ∉ alphabet → c ≠ space →
  validate_text (pre ++ c :: post) alphabet
  = Raise (AlphabetError, msg_char_not_found c).
Proof.
  intros Hpre Hc Hs. induction Hpre as [|x pre Hx _ IH]; simpl.
  - by rewrite decide_True.
  - rewrite decide_False; [done | tauto].
Qed.

(** ** The loops are instances of [translate] *)

Lemma caesar_loop_translate text key alphabet encrypt n acc :
  caesar_loop text key alphabet encrypt n acc
  = translate (caesar_step key alphabet encrypt n) 0 text acc.
Proof.
  generalize 0. revert acc.
  induction text as [|c rest IH]; intros acc i; simpl; [done |].
  case_decide; [apply IH |].
  unfold caesar_step.
  destruct (str_index alphabet c) as [idx|]; [| done]. rewrite !bind_Return.
  destruct (caesar_new_idx idx key n encrypt) as [j|]; [| done].
  rewrite !bind_Return.
  destruct (str_getitem alphabet j); [| done]. rewrite !bind_Return. apply IH.
Qed.

Lemma vigenere_loop_translate i text key alphabet encrypt n acc :
  vigenere_loop i text key alphabet encrypt n acc
  = translate (vigenere_step key alphabet encrypt n) i text acc.
Proof.
  revert i acc.
  induction text as [|c rest IH]; intros i acc; simpl; [done |].
  case_decide; [apply IH |].
  unfold vigenere_step.
  destruct (str_index alphabet c) as [idx|]; [| done]. rewrite !bind_Return.
  destruct (py_mod i (len key)) as [j|]; [| done]. rewrite !bind_Return.
  destruct (str_getitem key j) as [k|]; [| done]. rewrite !bind_Return.
  destruct (str_index alphabet k) as [kidx|]; [| done]. rewrite !bind_Return.
  destruct (if encrypt then _ else _) as [m|]; [| done]. rewrite !bind_Return.
  destruct (str_getitem alphabet m); [| done]. rewrite !bind_Return. apply IH.
Qed.

Lemma atbash_loop_translate text alphabet reversed_alphabet acc :
  atbash_loop text alphabet reversed_alphabet acc
  = translate (atbash_step alphabet reversed_alphabet) 0 text acc.
Proof.
  generalize 0. revert acc.
  induction text as [|c rest IH]; intros acc i; simpl; [done |].
  case_decide; [apply IH |].
  unfold atbash_step.
  destruct (str_index alphabet c) as [idx|]; [| done]. rewrite !bind_Return.
  destruct (str_getitem reversed_alphabet idx); [| done].
  rewrite !bind_Return. apply IH.
Qed.

(** ** What [translate] computes *)

Lemma translate_ext step step' i text acc :
  (∀ j c, step j c = step' j c) →
  translate step i text acc = translate step' i text acc.
Proof.
  intros Hext. revert i acc.
  induction text as [|c rest IH]; intros i acc; simpl; [done |].
  case_decide; [apply IH |].
  rewrite Hext. destruct (step' i c); simpl; [apply IH | done].
Qed.

Lemma translate_ok step i (text acc : str) :
  (∀ (j : nat) c, text !! j = Some c → c ≠ space →
     ∃ d, step (i + Z.of_nat j) c = Return d) →
  translate step i text acc
  = Return (acc ++ translated (outcome step) i text).
Proof.
  revert i acc.
  induction text as [|c rest IH]; intros i acc Hstep; simpl.
  - by rewrite app_nil_r.
  - assert (∀ (j : nat) c', rest !! j = Some c' → c' ≠ space →
              ∃ d, step (i + 1 + Z.of_nat j) c' = Return d) as Hrest.
    { intros j c' Hj Hc'. destruct (Hstep (S j) c' Hj Hc') as [d Hd].
      exists d. rewrite <- Hd. f_equal. lia. }
    case_decide as Hc.
    + rewrite IH by done. by rewrite <- app_assoc.
    + destruct (Hstep 0%nat c eq_refl Hc) as [d Hd].
      rewrite Z.add_0_r in Hd. unfold outcome at 1. rewrite Hd.
      rewrite bind_Return, IH by done. by rewrite <- app_assoc.
Qed.

Lemma translate_raise step i (text acc : str) e :
  (∀ (j : nat) c, text !! j = Some c → c ≠ space →
     step (i + Z.of_nat j) c = Raise e) →
  (∃ c, c ∈ text ∧ c ≠ space) →
  translate step i text acc = Raise e.
Proof.
  revert i acc.
  induction text as [|c rest IH]; intros i acc Hstep (x & Hx & Hxs).
  - by apply not_elem_of_nil in Hx.
  - simpl. case_decide as Hc.
    + apply IH.
      * intros j c' Hj Hc'. rewrite <- (Hstep (S j) c' Hj Hc'). f_equal. lia.
      * apply elem_of_cons in Hx as [-> | Hx]; [done | by exists x].
    + specialize (Hstep 0%nat c eq_refl Hc).
      rewrite Z.add_0_r in Hstep. by rewrite Hstep.
Qed.

Lemma length_translated g i (text : str) :
  length (translated g i text) = length text.
Proof.
  revert i. induction text as [|c rest IH]; intros i; simpl; [done |].
  by rewrite IH.
Qed.

Lemma translated_lookup g i (text : str) (j : nat) :
  translated g i text !! j
  = (λ c, if decide (c = space) then space else g (i + Z.of_nat j) c)
      <$> text !! j.
Proof.
  revert i j. induction text as [|c rest IH]; intros i j; [done |].
  destruct j as [|j]; simpl.
  - by rewrite Z.add_0_r.
  - rewrite IH.
    by replace (i + 1 + Z.of_nat j) with (i + Z.of_nat (S j)) by lia.
Qed.

Lemma translated_inverse g g' i (text : str) :
  (∀ (j : nat) c, text !! j = Some c → c ≠ space →
     g (i + Z.of_nat j) c ≠ space
     ∧ g' (i + Z.of_nat j) (g (i + Z.of_nat j) c) = c) →
  translated g' i (translated g i text) = text.
Proof.
  intros Hinv. apply list_eq. intros j.
  rewrite !translated_lookup.
  destruct (text !! j) as [c|] eqn:Hj; simpl; [| done].
  f_equal. destruct (decide (c = space)) as [-> | Hc].
  - by rewrite decide_True.
  - destruct (Hinv j c Hj Hc) as [Hns Hback].
    by rewrite decide_False.
Qed.

Lemma valid_text_translated g i (text alphabet : str) :
  (∀ (j : nat) c, text !! j = Some c → c ≠ space →
     g (i + Z.of_nat j) c ∈ alphabet) →
  valid_text (translated g i text) alphabet.
Proof.
  intros Hg. apply Forall_lookup_2. intros j d Hd.
  rewrite translated_lookup in Hd.
  destruct (text !! j) as [c|] eqn:Hj; simplify_eq/=.
  case_decide; [by right | left; by eapply Hg].
Qed.

Lemma valid_text_lookup (text alphabet : str) (j : nat) (c : char) :
  valid_text text alphabet → text !! j = Some c → c ≠ space → c ∈ alphabet.
Proof.
  intros Hv Hj Hc.
  destruct (Forall_lookup_1 _ _ _ _ Hv Hj); [done | contradiction].
Qed.

(** ** One step of each cipher on a character of the alphabet *)

Section steps.

Variable alphabet : str.
Hypothesis alphabet_nonempty : alphabet ≠ [].
Hypothesis alphabet_NoDup : NoDup alphabet.

Lemma alphabet_at (m : Z) :
  ∃ d, alphabet !! Z.to_nat (m mod len alphabet) = Some d
       ∧ str_getitem alphabet (m mod len alphabet) = Return d.
Proof using alphabet_nonempty.
  apply str_getitem_lookup, Z.mod_pos_bound, len_pos, alphabet_nonempty.
Qed.

Lemma caesar_step_lookup (key : Z) (encrypt : bool) i (k : nat) c :
  alphabet !! k = Some c →
  ∃ d, alphabet !! Z.to_nat
         ((if encrypt then Z.of_nat k + key else Z.of_nat k - key)
          mod len alphabet)
       = Some d
       ∧ caesar_step key alphabet encrypt (len alphabet) i c = Return d.
Proof using alphabet_nonempty alphabet_NoDup.
  intros Hk. unfold caesar_step, caesar_new_idx.
  rewrite (str_index_lookup _ _ _ alphabet_NoDup Hk), bind_Return.
  pose proof (len_pos _ alphabet_nonempty) as Hn.
  destruct encrypt; rewrite py_mod_pos, bind_Return by done;
    apply alphabet_at.
Qed.

Lemma vigenere_step_lookup (key : str) (encrypt : bool) i (k : nat) c :
  key ≠ [] → Forall (λ x, x ∈ alphabet) key →
  alphabet !! k = Some c →
  ∃ (q : nat) kc d,
    key !! Z.to_nat (i mod len key) = Some kc
    ∧ alphabet !! q = Some kc
    ∧ alphabet !! Z.to_nat
        ((if encrypt then Z.of_nat k + Z.of_nat q
          else Z.of_nat k - Z.of_nat q) mod len alphabet) = Some d
    ∧ vigenere_step key alphabet encrypt (len alphabet) i c = Return d.
Proof using alphabet_nonempty alphabet_NoDup.
  intros Hkey Hin Hk. unfold vigenere_step.
  rewrite (str_index_lookup _ _ _ alphabet_NoDup Hk), bind_Return.
  pose proof (len_pos _ alphabet_nonempty) as Hn.
  pose proof (len_pos _ Hkey) as Hlk.
  rewrite py_mod_pos, bind_Return by done.
  destruct (str_getitem_lookup key (i mod len key)) as (kc & Hkc & ->);
    [by apply Z.mod_pos_bound |].
  rewrite bind_Return.
  destruct (str_index_elem alphabet kc) as (q & Hq & ->);
    [exact (Forall_lookup_1 _ _ _ _ Hin Hkc) |].
  rewrite bind_Return.
  exists q, kc.
  destruct encrypt; rewrite py_mod_pos, bind_Return by done;
    [destruct (alphabet_at (Z.of_nat k + Z.of_nat q)) as (d & Hd & ->)
    |destruct (alphabet_at (Z.of_nat k - Z.of_nat q)) as (d & Hd & ->)];
    by exists d.
Qed.

Lemma atbash_step_lookup i (k : nat) c :
  alphabet !! k = Some c →
  ∃ d, alphabet !! (length alphabet - S k)%nat = Some d
       ∧ atbash_step alphabet (reverse alphabet) i c = Return d.
Proof using alphabet_NoDup.
  intros Hk. unfold atbash_step.
  rewrite (str_index_lookup _ _ _ alphabet_NoDup Hk), bind_Return.
  pose proof (lookup_lt_Some _ _ _ Hk) as Hlt.
  destruct (str_getitem_lookup (reverse alphabet) (Z.of_nat k))
    as (d & Hd & ->).
  - unfold len. rewrite length_reverse. lia.
  - exists d. split; [| done].
    by rewrite Nat2Z.id, reverse_lookup in Hd.
Qed.

(** The outcome of a step on a character at position [k]. *)

Lemma caesar_outcome (key : Z) (encrypt : bool) i (k : nat) c :
  alphabet !! k = Some c →
  alphabet !! Z.to_nat
    ((if encrypt then Z.of_nat k + key else Z.of_nat k - key)
     mod len alphabet)
  = Some (outcome (caesar_step key alphabet encrypt (len alphabet)) i c).
Proof using alphabet_nonempty alphabet_NoDup.
  intros Hk.
  destruct (caesar_step_lookup key encrypt i k c Hk) as (d & Hd & Hs).
  unfold outcome. by rewrite Hs.
Qed.

Lemma vigenere_outcome (key : str) (encrypt : bool) i (k : nat) c :
  key ≠ [] → Forall (λ x, x ∈ alphabet) key →
  alphabet !! k = Some c →
  ∃ (q : nat) kc,
    key !! Z.to_nat (i mod len key) = Some kc
    ∧ alphabet !! q = Some kc
    ∧ alphabet !! Z.to_nat
        ((if encrypt then Z.of_nat k + Z.of_nat q
          else Z.of_nat k - Z.of_nat q) mod len alphabet)
      = Some (outcome (vigenere_step key alphabet encrypt (len alphabet))
                i c).
Proof using alphabet_nonempty alphabet_NoDup.
  intros Hkey Hin Hk.
  destruct (vigenere_step_lookup key encrypt i k c Hkey Hin Hk)
    as (q & kc & d & Hkc & Hq & Hd & Hs).
  exists q, kc. unfold outcome. by rewrite Hs.
Qed.

Lemma atbash_outcome i (k : nat) c :
  alphabet !! k = Some c →
  alphabet !! (length alphabet - S k)%nat
  = Some (outcome (atbash_step alphabet (reverse alphabet)) i c).
Proof using alphabet_NoDup.
  intros Hk.
  destruct (atbash_step_lookup i k c Hk) as (d & Hd & Hs).
  unfold outcome. by rewrite Hs.
Qed.

End steps.

(** ** The ciphers on a valid text *)

Section ciphers.

Variable alphabet : str.
Hypothesis alphabet_nonempty : alphabet ≠ [].
Hypothesis alphabet_NoDup : NoDup alphabet.

Lemma caesar_cipher_translated (text : str) (key : Z) (encrypt : bool) :
  valid_text text alphabet →
  caesar_cipher text key alphabet encrypt
  = Return (translated
              (outcome (caesar_step key alphabet encrypt (len alphabet)))
              0 text).
Proof using alphabet_nonempty alphabet_NoDup.
  intros Hv. unfold caesar_cipher.
  rewrite (proj2 (validate_text_valid _ _) Hv), bind_Return.
  cbv zeta. rewrite caesar_loop_translate, translate_ok; [done |].
  intros j c Hj Hc.
  destruct (list_elem_of_lookup_1 alphabet c) as [k Hk];
    [exact (valid_text_lookup _ _ _ _ Hv Hj Hc) |].
  destruct (caesar_step_lookup alphabet alphabet_nonempty alphabet_NoDup
              key encrypt (0 + Z.of_nat j) k c Hk) as (d & _ & Hd).
  by exists d.
Qed.

Lemma remove_spaces_in_alphabet (key : str) :
  valid_text key alphabet → Forall (λ x, x ∈ alphabet) (remove_spaces key).
Proof.
  intros Hv. apply Forall_forall. intros x [Hx Hin]%list_elem_of_filter.
  destruct (proj1 (Forall_forall _ _) Hv x Hin); [done | contradiction].
Qed.

Lemma vigenere_cipher_translated (text key : str) (encrypt : bool) :
  valid_text text alphabet → valid_text key alphabet →
  remove_spaces key ≠ [] →
  vigenere_cipher text key alphabet encrypt
  = Return (translated
              (outcome (vigenere_step (remove_spaces key) alphabet encrypt
                         (len alphabet)))
              0 text).
Proof using alphabet_nonempty alphabet_NoDup.
  intros Hv Hkv Hkey. unfold vigenere_cipher.
  rewrite (proj2 (validate_text_valid _ _) Hv), bind_Return.
  rewrite (proj2 (validate_text_valid _ _) Hkv), bind_Return.
  case_decide as Hk0; [subst key; by destruct Hkey |].
  rewrite vigenere_loop_translate, translate_ok; [done |].
  intros j c Hj Hc.
  destruct (list_elem_of_lookup_1 alphabet c) as [k Hk];
    [exact (valid_text_lookup _ _ _ _ Hv Hj Hc) |].
  destruct (vigenere_step_lookup alphabet alphabet_nonempty alphabet_NoDup
              (remove_spaces key) encrypt (0 + Z.of_nat j) k c Hkey
              (remove_spaces_in_alphabet key Hkv) Hk)
    as (q & kc & d & _ & _ & _ & Hd).
  by exists d.
Qed.

Lemma atbash_cipher_translated (text : str) (encrypt : bool) :
  valid_text text alphabet →
  atbash_cipher text alphabet encrypt
  = Return (translated (outcome (atbash_step alphabet (reverse alphabet)))
              0 text).
Proof using alphabet_NoDup.
  intros Hv. unfold atbash_cipher.
  rewrite (proj2 (validate_text_valid _ _) Hv), bind_Return.
  cbv zeta. rewrite atbash_loop_translate, translate_ok; [done |].
  intros j c Hj Hc.
  destruct (list_elem_of_lookup_1 alphabet c) as [k Hk];
    [exact (valid_text_lookup _ _ _ _ Hv Hj Hc) |].
  destruct (atbash_step_lookup alphabet alphabet_NoDup
              (0 + Z.of_nat j) k c Hk) as (d & _ & Hd).
  by exists d.
Qed.

(** Outcomes stay in the alphabet. *)

Lemma caesar_outcome_in (key : Z) (encrypt : bool) i c :
  c ∈ alphabet →
  outcome (caesar_step key alphabet encrypt (len alphabet)) i c ∈ alphabet.
Proof using alphabet_nonempty alphabet_NoDup.
  intros [k Hk]%list_elem_of_lookup_1.
  exact (list_elem_of_lookup_2 _ _ _
           (caesar_outcome alphabet alphabet_nonempty alphabet_NoDup
              key encrypt i k c Hk)).
Qed.

Lemma vigenere_outcome_in (key : str) (encrypt : bool) i c :
  key ≠ [] → Forall (λ x, x ∈ alphabet) key → c ∈ alphabet →
  outcome (vigenere_step key alphabet encrypt (len alphabet)) i c ∈ alphabet.
Proof using alphabet_nonempty alphabet_NoDup.
  intros Hkey Hin [k Hk]%list_elem_of_lookup_1.
  destruct (vigenere_outcome alphabet alphabet_nonempty alphabet_NoDup
              key encrypt i k c Hkey Hin Hk) as (q & kc & _ & _ & Hd).
  by eapply list_elem_of_lookup_2.
Qed.

Lemma atbash_outcome_in i c :
  c ∈ alphabet →
  outcome (atbash_step alphabet (reverse alphabet)) i c ∈ alphabet.
Proof using alphabet_NoDup.
  intros [k Hk]%list_elem_of_lookup_1.
  exact (list_elem_of_lookup_2 _ _ _
           (atbash_outcome alphabet alphabet_NoDup i k c Hk)).
Qed.

(** Decrypting the outcome of encrypting gives the character back. *)

Lemma caesar_outcome_inverse (key : Z) i c :
  c ∈ alphabet →
  outcome (caesar_step key alphabet false (len alphabet)) i
    (outcome (caesar_step key alphabet true (len alphabet)) i c) = c.
Proof using alphabet_nonempty alphabet_NoDup.
  intros [k Hk]%list_elem_of_lookup_1.
  pose proof (len_pos _ alphabet_nonempty) as Hn.
  pose proof (lookup_len _ _ _ Hk) as Hkn.
  pose proof (caesar_outcome alphabet alphabet_nonempty alphabet_NoDup
                key true i k c Hk) as He. cbv beta iota in He.
  pose proof (caesar_outcome alphabet alphabet_nonempty alphabet_NoDup
                key false i _ _ He) as Hd. cbv beta iota in Hd.
  rewrite Z2Nat.id in Hd by (apply Z.mod_pos_bound; lia).
  rewrite Zminus_mod_idemp_l in Hd.
  replace (Z.of_nat k + key - key) with (Z.of_nat k) in Hd by lia.
  rewrite Z.mod_small, Nat2Z.id in Hd by lia.
  congruence.
Qed.

Lemma vigenere_outcome_inverse (key : str) i c :
  key ≠ [] → Forall (λ x, x ∈ alphabet) key → c ∈ alphabet →
  outcome (vigenere_step key alphabet false (len alphabet)) i
    (outcome (vigenere_step key alphabet true (len alphabet)) i c) = c.
Proof using alphabet_nonempty alphabet_NoDup.
  intros Hkey Hin [k Hk]%list_elem_of_lookup_1.
  pose proof (len_pos _ alphabet_nonempty) as Hn.
  pose proof (lookup_len _ _ _ Hk) as Hkn.
  destruct (vigenere_outcome alphabet alphabet_nonempty alphabet_NoDup
              key true i k c Hkey Hin Hk) as (q & kc & Hkc & Hq & He).
  destruct (vigenere_outcome alphabet alphabet_nonempty alphabet_NoDup
              key false i _ _ Hkey Hin He) as (q' & kc' & Hkc' & Hq' & Hd).
  assert (kc' = kc) as -> by congruence.
  assert (q' = q) as -> by (by eapply NoDup_lookup).
  rewrite Z2Nat.id in Hd by (apply Z.mod_pos_bound; lia).
  rewrite Zminus_mod_idemp_l in Hd.
  replace (Z.of_nat k + Z.of_nat q - Z.of_nat q) with (Z.of_nat k) in Hd
    by lia.
  rewrite Z.mod_small, Nat2Z.id in Hd by lia.
  congruence.
Qed.

Lemma atbash_outcome_involutive i c :
  c ∈ alphabet →
  outcome (atbash_step alphabet (reverse alphabet)) i
    (outcome (atbash_step alphabet (reverse alphabet)) i c) = c.
Proof using alphabet_NoDup.
  intros [k Hk]%list_elem_of_lookup_1.
  pose proof (lookup_lt_Some _ _ _ Hk) as Hlt.
  pose proof (atbash_outcome alphabet alphabet_NoDup i k c Hk) as He.
  pose proof (atbash_outcome alphabet alphabet_NoDup i _ _ He) as Hd.
  replace (length alphabet - S (length alphabet - S k))%nat with k in Hd
    by lia.
  congruence.
Qed.

End ciphers.

(** ** read_alphabet *)

Lemma lstrip_spec (s : str) :
  ∃ pre, s = pre ++ lstrip s ∧ Forall (λ c, isspace c = true) pre.
Proof.
  induction s as [|c s (pre & Hs & Hpre)]; simpl.
  - by exists [].
  - destruct (isspace c) eqn:Hc.
    + exists (c :: pre). split; [by rewrite Hs at 1 | by constructor].
    + by exists [].
Qed.

Lemma rstrip_spec (s : str) :
  ∃ post, s = rstrip s ++ post ∧ Forall (λ c, isspace c = true) post.
Proof.
  destruct (lstrip_spec (reverse s)) as (pre & Hs & Hpre).
  exists (reverse pre). split.
  - unfold rstrip. rewrite <- reverse_app, <- Hs. by rewrite reverse_involutive.
  - by apply Forall_reverse.
Qed.

Lemma strip_spec (s : str) :
  ∃ pre post, s = pre ++ strip s ++ post
              ∧ Forall (λ c, isspace c = true) pre
              ∧ Forall (λ c, isspace c = true) post.
Proof.
  destruct (lstrip_spec s) as (pre & Hs & Hpre).
  destruct (rstrip_spec (lstrip s)) as (post & Hl & Hpost).
  exists pre, post. unfold strip. by rewrite <- Hl.
Qed.

Lemma size_list_to_set_le (l : str) :
  (size (list_to_set l : gset N) ≤ length l)%nat.
Proof.
  induction l as [|x l IH].
  - by rewrite list_to_set_nil, size_empty.
  - rewrite list_to_set_cons, size_union_alt, size_singleton. cbn [length].
    assert (list_to_set l ∖ {[x]} ⊆ (list_to_set l : gset N)) as Hsub
      by apply subseteq_difference_l, reflexivity.
    apply subseteq_size in Hsub. lia.
Qed.

Lemma size_list_to_set_NoDup (l : str) :
  size (list_to_set l : gset N) = length l ↔ NoDup l.
Proof.
  split; [| apply size_list_to_set].
  induction l as [|x l IH]; intros Hsize; [constructor |].
  rewrite list_to_set_cons in Hsize. cbn [length] in Hsize.
  pose proof (size_list_to_set_le l) as Hle.
  destruct (decide (x ∈ l)) as [Hx | Hx].
  - rewrite (subseteq_union_1_L {[x]} (list_to_set l : gset N)) in Hsize; [lia |].
    by apply singleton_subseteq_l, elem_of_list_to_set.
  - rewrite size_union, size_singleton in Hsize
      by (by apply disjoint_singleton_l; rewrite elem_of_list_to_set).
    constructor; [done |]. apply IH. lia.
Qed.

(** ** validate_text never stops anywhere but at the first offender *)

Lemma validate_text_cases (text alphabet : str) :
  validate_text text alphabet = Return tt
  ∨ ∃ pre c post,
      text = pre ++ c :: post
      ∧ valid_text pre alphabet ∧ (c ∉ alphabet) ∧ (c ≠ space)
      ∧ validate_text text alphabet
        = Raise (AlphabetError, msg_char_not_found c).
Proof.
  induction text as [|x text IH]; simpl; [by left |].
  case_decide as Hx.
  - right. exists [], x, text.
    split; [done |]. split; [constructor |]. tauto.
  - destruct IH as [IH | (pre & c & post & -> & Hpre & Hc & Hs & IH)];
      [by left |].
    right. exists (x :: pre), c, post.
    split; [done |]. split; [| done].
    constructor; [| done].
    destruct (decide (x ∈ alphabet)); [by left |].
    destruct (decide (x = space)); [by right | tauto].
Qed.

Lemma translated_shape g i (text alphabet : str) :
  space ∉ alphabet →
  (∀ (j : nat) c, text !! j = Some c → c ≠ space →
     g (i + Z.of_nat j) c ∈ alphabet) →
  same_shape text (translated g i text) alphabet.
Proof.
  intros Hsp Hg. split; [apply length_translated |]. split.
  - intros p. rewrite translated_lookup.
    destruct (text !! p) as [c|] eqn:Hp; simpl; [| done].
    case_decide as Hc; [by subst |].
    split; intros [= Heq]; [| done].
    destruct Hsp. rewrite <- Heq. by eapply Hg.
  - apply Forall_lookup_2. intros j d Hd Hns.
    rewrite translated_lookup in Hd.
    destruct (text !! j) as [c|] eqn:Hj; simplify_eq/=.
    case_decide as Hc; [done | by eapply Hg].
Qed.

(** * The claims of the specification *)

(** C8. [read_alphabet] raises [FileNotFoundError] for a path that does not
    exist; for an existing file it raises [AlphabetError] when the stripped
    content is empty or has a repeated character (as "aab" has), and
    otherwise returns the stripped content: the characters of the file in
    their order, without the white space before and after them. *)
Theorem read_alphabet_spec (fs : gmap string str) (filepath : string) :
  (fs !! filepath = None →
     read_alphabet fs filepath
     = Raise (FileNotFoundError, msg_file_not_found filepath))
  ∧ (∀ content, fs !! filepath = Some content →
       (strip content = [] →
          read_alphabet fs filepath = Raise (AlphabetError, msg_empty_alphabet))
       ∧ (¬ NoDup (strip content) →
          read_alphabet fs filepath = Raise (AlphabetError, msg_duplicates))
       ∧ (∀ alphabet, read_alphabet fs filepath = Return alphabet ↔
            alphabet = strip content ∧ alphabet ≠ [] ∧ NoDup alphabet)
       ∧ ∃ pre post, content = pre ++ strip content ++ post
                     ∧ Forall (λ c, isspace c = true) pre
                     ∧ Forall (λ c, isspace c = true) post)
  ∧ read_alphabet {[ "alphabet.txt"%string := lit "aab" ]} "alphabet.txt"
    = Raise (AlphabetError, msg_duplicates)
  ∧ read_alphabet {[ "alphabet.txt"%string := [10%N] ]} "alphabet.txt"
    = Raise (AlphabetError, msg_empty_alphabet)
  ∧ read_alphabet {[ "alphabet.txt"%string := [] ]} "alphabet.txt"
    = Raise (AlphabetError, msg_empty_alphabet).
Proof.
  split; [| split].
  - intros Hnone. unfold read_alphabet. by rewrite Hnone.
  - intros content Hsome. unfold read_alphabet. rewrite Hsome. cbv zeta.
    split; [| split; [| split]].
    + intros ->. by rewrite decide_True.
    + intros Hdup.
      case_decide as Hempty; [destruct Hdup; rewrite Hempty; constructor |].
      case_decide as Hsize; [done |].
      destruct Hdup. apply size_list_to_set_NoDup.
      destruct (decide (size (list_to_set (strip content) : gset N)
                        = length (strip content))); [done |].
      destruct Hsize. congruence.
    + intros alphabet.
      case_decide as Hempty.
      { split; [done |]. intros (-> & Hne & _). done. }
      case_decide as Hsize.
      { split; [done |]. intros (-> & _ & Hnd).
        apply size_list_to_set_NoDup in Hnd. congruence. }
      split.
      * intros [= <-]. split; [done |]. split; [done |].
        apply size_list_to_set_NoDup.
        destruct (decide (size (list_to_set (strip content) : gset N)
                          = length (strip content))); [done |].
        destruct Hsize. congruence.
      * by intros (-> & _ & _).
    + apply strip_spec.
  - split; [by vm_compute |]. split; by vm_compute.
Qed.

(** A file "abc" followed by a newline loads as the alphabet "abc"; the
    statement of C8 used at that file. *)
Lemma read_alphabet_spec_witness :
  read_alphabet {[ "alphabet.txt"%string := lit "abc" ++ [10%N] ]}
    "alphabet.txt" = Return (lit "abc").
Proof.
  destruct (read_alphabet_spec
              {[ "alphabet.txt"%string := lit "abc" ++ [10%N] ]}
              "alphabet.txt") as (_ & Hsome & _).
  destruct (Hsome (lit "abc" ++ [10%N])) as (_ & _ & Hret & _).
  - by vm_compute.
  - apply Hret. split; [by vm_compute |]. split; [by vm_compute |].
    compute_done.
Defined.

(** C9. [validate_text] returns exactly when every character of the text is
    in the alphabet or is a space; otherwise it raises [AlphabetError] for
    the leftmost character that is neither, everything before it being
    valid. "xyz" over "abc" fails at 'x'; "a b c" over "abc" passes. *)
Theorem validate_text_fail_fast (text alphabet : str) :
  (validate_text text alphabet = Return tt ↔
     Forall (λ c, c ∈ alphabet ∨ c = space) text)
  ∧ (validate_text text alphabet = Return tt
     ∨ ∃ pre c post,
         text = pre ++ c :: post
         ∧ Forall (λ x, x ∈ alphabet ∨ x = space) pre
         ∧ (c ∉ alphabet) ∧ (c ≠ space)
         ∧ validate_text text alphabet
           = Raise (AlphabetError, msg_char_not_found c))
  ∧ validate_text (lit "xyz") (lit "abc")
    = Raise (AlphabetError, msg_char_not_found (N_of_ascii "x"))
  ∧ validate_text (lit "a b c") (lit "abc") = Return tt.
Proof.
  split; [apply validate_text_valid |].
  split; [apply validate_text_cases |].
  split; by vm_compute.
Qed.

(** C3. Over "abcdef" with key "ba", "ab cd" encrypts to "bb ce" and "bb ce"
    decrypts to "ab cd": the space is copied and the position counter that
    selects the key character moves past it, as it does in every run of the
    loop. *)
Theorem vigenere_counts_spaces :
  vigenere_cipher (lit "ab cd") (lit "ba") (lit "abcdef") true
  = Return (lit "bb ce")
  ∧ vigenere_cipher (lit "bb ce") (lit "ba") (lit "abcdef") false
    = Return (lit "ab cd")
  ∧ (∀ i text key alphabet encrypt n acc,
       vigenere_loop i (space :: text) key alphabet encrypt n acc
       = vigenere_loop (i + 1) text key alphabet encrypt n (acc ++ [space]))
  ∧ (∀ i c text key alphabet encrypt n acc,
       vigenere_loop i (c :: text) key alphabet encrypt n acc
       = if decide (c = space)
         then vigenere_loop (i + 1) text key alphabet encrypt n (acc ++ [c])
         else out ← vigenere_step key alphabet encrypt n i c;
              vigenere_loop (i + 1) text key alphabet encrypt n (acc ++ [out])).
Proof.
  split; [by vm_compute |]. split; [by vm_compute |]. split; [done |].
  intros i c text key alphabet encrypt n acc.
  rewrite vigenere_loop_translate. simpl.
  case_decide; [subst c; by rewrite vigenere_loop_translate |].
  destruct (vigenere_step key alphabet encrypt n i c); simpl; [| done].
  by rewrite vigenere_loop_translate.
Qed.

(** C5, as the code has it. With the empty key [vigenere_cipher] never
    returns: it raises an exception of class [CipherError] or of its subclass
    [AlphabetError]. For a text that passes validation the exception is the
    generic [CipherError] for the empty key; a text that does not pass is
    reported first, by its [AlphabetError]. *)
Theorem vigenere_empty_key (text alphabet : str) (encrypt : bool) :
  (∃ e, vigenere_cipher text [] alphabet encrypt = Raise e
        ∧ issubclass (fst e) CipherError = true)
  ∧ (Forall (λ c, c ∈ alphabet ∨ c = space) text →
     vigenere_cipher text [] alphabet encrypt
     = Raise (CipherError, msg_empty_key))
  ∧ (¬ Forall (λ c, c ∈ alphabet ∨ c = space) text →
     raised (vigenere_cipher text [] alphabet encrypt) = Some AlphabetError).
Proof.
  unfold vigenere_cipher.
  destruct (validate_text_cases text alphabet)
    as [Hok | (pre & c & post & -> & Hpre & Hc & Hs & Hraise)].
  - rewrite Hok. simpl. split; [by eexists |]. split; [done |].
    intros Hbad. destruct Hbad. by apply validate_text_valid.
  - rewrite Hraise. simpl. split; [by eexists |]. split; [| done].
    intros Hv%validate_text_valid. congruence.
Qed.

(** C5 at the text of the test: "abc" over "abc" with the empty key. *)
Lemma vigenere_empty_key_witness :
  vigenere_cipher (lit "abc") [] (lit "abc") true
  = Raise (CipherError, msg_empty_key).
Proof.
  apply (vigenere_empty_key (lit "abc") (lit "abc") true).
  compute_done.
Defined.

(** C5 as stated fails: the text "x" is not over "abc", and with the empty
    key the call raises the [AlphabetError] for 'x', not the [CipherError]
    for the key. *)
Lemma vigenere_empty_key_invalid_text :
  vigenere_cipher (lit "x") [] (lit "abc") true
  = Raise (AlphabetError, msg_char_not_found (N_of_ascii "x"))
  ∧ vigenere_cipher (lit "x") [] (lit "abc") true
    ≠ Raise (CipherError, msg_empty_key).
Proof. split; by vm_compute. Qed.

(** C6, as the code has it. A key that is not empty and holds nothing but
    spaces passes validation and the emptiness test and is empty once its
    spaces are removed; on a valid text with a character that is not a space
    [key[i % len(key)]] then divides by zero and the call ends with
    [ZeroDivisionError], which is not a [CipherError]. *)
Theorem vigenere_blank_key_zero_division
    (text key alphabet : str) (encrypt : bool) :
  key ≠ [] → Forall (λ c, c = space) key →
  Forall (λ c, c ∈ alphabet ∨ c = space) text →
  (∃ c, c ∈ text ∧ c ≠ space) →
  validate_text key alphabet = Return tt
  ∧ remove_spaces key = []
  ∧ vigenere_cipher text key alphabet encrypt
    = Raise (ZeroDivisionError, msg_builtin)
  ∧ issubclass ZeroDivisionError CipherError = false.
Proof.
  intros Hkey Hblank Hv Hc.
  assert (validate_text key alphabet = Return tt) as Hkv.
  { apply validate_text_valid. eapply Forall_impl; [exact Hblank |].
    intros c ->. by right. }
  assert (remove_spaces key = []) as Hrm.
  { clear Hkey Hkv. induction Hblank as [|c key -> _ IH]; [done |].
    unfold remove_spaces in *. by rewrite filter_cons_False by (by intros ?). }
  split; [done |]. split; [done |]. split; [| done].
  unfold vigenere_cipher.
  rewrite (proj2 (validate_text_valid _ _) Hv), bind_Return, Hkv, bind_Return.
  rewrite decide_False by done. cbv zeta.
  rewrite Hrm, vigenere_loop_translate.
  apply translate_raise; [| done].
  intros j c Hj Hns. unfold vigenere_step.
  destruct (str_index_elem alphabet c) as (k & _ & ->);
    [exact (valid_text_lookup _ _ _ _ Hv Hj Hns) |].
  by rewrite bind_Return.
Qed.

(** C6 at the key " " and the text "ab" over "ab". *)
Lemma vigenere_blank_key_zero_division_witness :
  vigenere_cipher (lit "ab") (lit " ") (lit "ab") true
  = Raise (ZeroDivisionError, msg_builtin).
Proof.
  apply (vigenere_blank_key_zero_division (lit "ab") (lit " ") (lit "ab") true).
  - by vm_compute.
  - compute_done.
  - compute_done.
  - exists (N_of_ascii "a"). split; [compute_done | by vm_compute].
Defined.

(** C6 as stated fails: the text "ax" holds the character 'a' of the
    alphabet "a", the key " " is blank, and the call ends with the
    [AlphabetError] for 'x', before any division. *)
Lemma vigenere_blank_key_invalid_text :
  N_of_ascii "a" ∈ lit "ax" ∧ N_of_ascii "a" ∈ lit "a"
  ∧ N_of_ascii "a" ≠ space
  ∧ lit " " ≠ [] ∧ Forall (λ c, c = space) (lit " ")
  ∧ vigenere_cipher (lit "ax") (lit " ") (lit "a") true
    = Raise (AlphabetError, msg_char_not_found (N_of_ascii "x")).
Proof.
  split; [compute_done |]. split; [compute_done |]. split; [by vm_compute |].
  split; [by vm_compute |]. split; [compute_done | by vm_compute].
Qed.

(** C7. Over a non-empty duplicate-free alphabet of length [n],
    [caesar_cipher] returns for every valid text, either mode and every
    integer key; every index it computes is in [0, n); and the key [k] gives
    the same result as the key [k mod n]. *)
Theorem caesar_key_normalization
    (text alphabet : str) (key : Z) (encrypt : bool) :
  alphabet ≠ [] → NoDup alphabet →
  Forall (λ c, c ∈ alphabet ∨ c = space) text →
  (∃ out, caesar_cipher text key alphabet encrypt = Return out)
  ∧ (∀ idx, ∃ new_idx,
       caesar_new_idx idx key (len alphabet) encrypt = Return new_idx
       ∧ 0 ≤ new_idx < len alphabet)
  ∧ caesar_cipher text key alphabet encrypt
    = caesar_cipher text (key mod len alphabet) alphabet encrypt.
Proof.
  intros Hne Hnd Hv. pose proof (len_pos _ Hne) as Hn.
  split; [| split].
  - eexists. by apply caesar_cipher_translated.
  - intros idx. unfold caesar_new_idx.
    destruct encrypt; rewrite py_mod_pos by done;
      (eexists; split; [done | by apply Z.mod_pos_bound]).
  - unfold caesar_cipher.
    destruct (validate_text text alphabet); simpl; [| done].
    rewrite !caesar_loop_translate. apply translate_ext.
    intros j c. unfold caesar_step.
    destruct (str_index alphabet c) as [idx|]; simpl; [| done].
    unfold caesar_new_idx.
    destruct encrypt; rewrite !py_mod_pos by done;
      [by rewrite Zplus_mod_idemp_r | by rewrite Zminus_mod_idemp_r].
Qed.

(** C7 at the key -4 over "abcdef": "ace" encrypts as with the key 2. *)
Lemma caesar_key_normalization_witness :
  caesar_cipher (lit "ace") (-4) (lit "abcdef") true
  = caesar_cipher (lit "ace") (-4 mod len (lit "abcdef")) (lit "abcdef") true.
Proof.
  apply (caesar_key_normalization (lit "ace") (lit "abcdef") (-4) true).
  - by vm_compute.
  - compute_done.
  - compute_done.
Defined.

(** C1, as the code has it. Over a non-empty duplicate-free alphabet that
    does not hold the space character, for every valid text and every integer
    key, encrypting returns a text and decrypting that text with the same key
    returns the original. *)
Theorem caesar_round_trip (text alphabet : str) (key : Z) :
  alphabet ≠ [] → NoDup alphabet → space ∉ alphabet →
  Forall (λ c, c ∈ alphabet ∨ c = space) text →
  ∃ encrypted,
    caesar_cipher text key alphabet true = Return encrypted
    ∧ caesar_cipher encrypted key alphabet false = Return text.
Proof.
  intros Hne Hnd Hsp Hv. eexists.
  split; [by apply caesar_cipher_translated |].
  rewrite caesar_cipher_translated; [f_equal | done | done |].
  - apply translated_inverse. intros j c Hj Hc.
    pose proof (valid_text_lookup _ _ _ _ Hv Hj Hc) as Hin.
    split; [| by apply caesar_outcome_inverse].
    intros Heq. destruct Hsp. rewrite <- Heq. by apply caesar_outcome_in.
  - apply valid_text_translated. intros j c Hj Hc.
    apply caesar_outcome_in; [done | done |].
    exact (valid_text_lookup _ _ _ _ Hv Hj Hc).
Qed.

(** C1 at the scenario of the specification: "ace" over "abcdef", key 2. *)
Lemma caesar_round_trip_witness :
  ∃ encrypted,
    caesar_cipher (lit "ace") 2 (lit "abcdef") true = Return encrypted
    ∧ caesar_cipher encrypted 2 (lit "abcdef") false = Return (lit "ace").
Proof.
  apply (caesar_round_trip (lit "ace") (lit "abcdef") 2).
  - by vm_compute.
  - compute_done.
  - compute_done.
  - compute_done.
Defined.

(** C1 as stated fails: "a b" is non-empty and duplicate-free, and "a" is a
    text over it; with the key 1 the character 'a' encrypts to the space of
    the alphabet, which decryption copies instead of shifting back. *)
Lemma caesar_round_trip_space_in_alphabet :
  lit "a b" ≠ [] ∧ NoDup (lit "a b")
  ∧ Forall (λ c, c ∈ lit "a b" ∨ c = space) (lit "a")
  ∧ caesar_cipher (lit "a") 1 (lit "a b") true = Return (lit " ")
  ∧ caesar_cipher (lit " ") 1 (lit "a b") false = Return (lit " ")
  ∧ lit " " ≠ lit "a".
Proof.
  split; [by vm_compute |]. split; [compute_done |]. split; [compute_done |].
  split; [by vm_compute |]. split; by vm_compute.
Qed.

Lemma remove_spaces_no_space (key alphabet : str) :
  space ∉ alphabet → Forall (λ x, x ∈ alphabet) key → remove_spaces key = key.
Proof.
  intros Hsp Hin. unfold remove_spaces.
  induction Hin as [|x key Hx _ IH]; [done |].
  rewrite filter_cons_True by (by intros ->). by rewrite IH.
Qed.

(** C2, as the code has it. Over a non-empty duplicate-free alphabet that
    does not hold the space character, for every valid text and every
    non-empty key of characters of the alphabet, encrypting returns a text
    and decrypting that text with the same key returns the original. *)
Theorem vigenere_round_trip (text key alphabet : str) :
  alphabet ≠ [] → NoDup alphabet → space ∉ alphabet →
  Forall (λ c, c ∈ alphabet ∨ c = space) text →
  key ≠ [] → Forall (λ x, x ∈ alphabet) key →
  ∃ encrypted,
    vigenere_cipher text key alphabet true = Return encrypted
    ∧ vigenere_cipher encrypted key alphabet false = Return text.
Proof.
  intros Hne Hnd Hsp Hv Hkey Hin.
  assert (valid_text key alphabet) as Hkv
    by (eapply Forall_impl; [exact Hin | by left]).
  pose proof (remove_spaces_no_space _ _ Hsp Hin) as Hrm.
  assert (remove_spaces key ≠ []) as Hkey' by congruence.
  eexists.
  split; [by apply vigenere_cipher_translated |].
  rewrite vigenere_cipher_translated; [f_equal | done | done | | done |done].
  - rewrite Hrm. apply translated_inverse. intros j c Hj Hc.
    pose proof (valid_text_lookup _ _ _ _ Hv Hj Hc) as Hc_in.
    split; [| by apply vigenere_outcome_inverse].
    intros Heq. destruct Hsp. rewrite <- Heq.
    by apply vigenere_outcome_in.
  - rewrite Hrm. apply valid_text_translated. intros j c Hj Hc.
    apply vigenere_outcome_in; [done | done | done | done |].
    exact (valid_text_lookup _ _ _ _ Hv Hj Hc).
Qed.

(** C2 at the scenario of the specification: "ab cd" over "abcdef" with the
    key "ba". *)
Lemma vigenere_round_trip_witness :
  ∃ encrypted,
    vigenere_cipher (lit "ab cd") (lit "ba") (lit "abcdef") true
    = Return encrypted
    ∧ vigenere_cipher encrypted (lit "ba") (lit "abcdef") false
      = Return (lit "ab cd").
Proof.
  apply (vigenere_round_trip (lit "ab cd") (lit "ba") (lit "abcdef")).
  - by vm_compute.
  - compute_done.
  - compute_done.
  - compute_done.
  - by vm_compute.
  - compute_done.
Defined.

(** C2 as stated fails: over "a b" the text "b" with the key "b" encrypts to
    the space of the alphabet ((2 + 2) mod 3 = 1), which decryption copies. *)
Lemma vigenere_round_trip_space_in_alphabet :
  lit "a b" ≠ [] ∧ NoDup (lit "a b")
  ∧ Forall (λ c, c ∈ lit "a b" ∨ c = space) (lit "b")
  ∧ lit "b" ≠ [] ∧ Forall (λ x, x ∈ lit "a b") (lit "b")
  ∧ vigenere_cipher (lit "b") (lit "b") (lit "a b") true = Return (lit " ")
  ∧ vigenere_cipher (lit " ") (lit "b") (lit "a b") false = Return (lit " ")
  ∧ lit " " ≠ lit "b".
Proof.
  split; [by vm_compute |]. split; [compute_done |]. split; [compute_done |].
  split; [by vm_compute |]. split; [compute_done |].
  split; [by vm_compute |]. split; by vm_compute.
Qed.

(** C4, as the code has it. Over a non-empty duplicate-free alphabet that
    does not hold the space character, [atbash_cipher] applied twice to a
    valid text returns the text, whatever the two mode flags; and on every
    text and alphabet the two modes give the same result. *)
Theorem atbash_involution (text alphabet : str) :
  alphabet ≠ [] → NoDup alphabet → space ∉ alphabet →
  Forall (λ c, c ∈ alphabet ∨ c = space) text →
  (∀ mode1 mode2 : bool, ∃ once,
     atbash_cipher text alphabet mode1 = Return once
     ∧ atbash_cipher once alphabet mode2 = Return text)
  ∧ (∀ any_text any_alphabet : str,
       atbash_cipher any_text any_alphabet true
       = atbash_cipher any_text any_alphabet false).
Proof.
  intros Hne Hnd Hsp Hv. split; [| done].
  intros mode1 mode2. eexists.
  split; [by apply atbash_cipher_translated |].
  rewrite atbash_cipher_translated; [f_equal | done |].
  - apply translated_inverse. intros j c Hj Hc.
    pose proof (valid_text_lookup _ _ _ _ Hv Hj Hc) as Hc_in.
    split; [| by apply atbash_outcome_involutive].
    intros Heq. destruct Hsp. rewrite <- Heq. by apply atbash_outcome_in.
  - apply valid_text_translated. intros j c Hj Hc.
    apply atbash_outcome_in; [done |].
    exact (valid_text_lookup _ _ _ _ Hv Hj Hc).
Qed.

(** C4 at the text "ab cd" over "abcdef". *)
Lemma atbash_involution_witness :
  ∃ once,
    atbash_cipher (lit "ab cd") (lit "abcdef") true = Return once
    ∧ atbash_cipher once (lit "abcdef") false = Return (lit "ab cd").
Proof.
  apply (atbash_involution (lit "ab cd") (lit "abcdef")).
  - by vm_compute.
  - compute_done.
  - compute_done.
  - compute_done.
Defined.

(** C4 as stated fails: over "a bc" the character 'b' is mirrored to the
    space of the alphabet, which the second call copies. *)
Lemma atbash_involution_space_in_alphabet :
  lit "a bc" ≠ [] ∧ NoDup (lit "a bc")
  ∧ Forall (λ c, c ∈ lit "a bc" ∨ c = space) (lit "b")
  ∧ atbash_cipher (lit "b") (lit "a bc") true = Return (lit " ")
  ∧ atbash_cipher (lit " ") (lit "a bc") true = Return (lit " ")
  ∧ lit " " ≠ lit "b".
Proof.
  split; [by vm_compute |]. split; [compute_done |]. split; [compute_done |].
  split; [by vm_compute |]. split; by vm_compute.
Qed.

(** C10, as the code has it. Over a non-empty duplicate-free alphabet that
    does not hold the space character, for every valid text, every integer
    Caesar key, every Vigenere key that passes validation and has a
    character other than the space, and either mode, each of the three
    ciphers returns a text of the length of the input, with spaces exactly
    where the input has them and every other character in the alphabet. *)
Theorem ciphers_preserve_shape
    (text key alphabet : str) (shift : Z) (encrypt : bool) :
  alphabet ≠ [] → NoDup alphabet → space ∉ alphabet →
  Forall (λ c, c ∈ alphabet ∨ c = space) text →
  Forall (λ c, c ∈ alphabet ∨ c = space) key → remove_spaces key ≠ [] →
  (∃ out, caesar_cipher text shift alphabet encrypt = Return out
          ∧ same_shape text out alphabet)
  ∧ (∃ out, vigenere_cipher text key alphabet encrypt = Return out
            ∧ same_shape text out alphabet)
  ∧ (∃ out, atbash_cipher text alphabet encrypt = Return out
            ∧ same_shape text out alphabet).
Proof.
  intros Hne Hnd Hsp Hv Hkv Hkey.
  split; [| split]; eexists.
  - split; [by apply caesar_cipher_translated |].
    apply translated_shape; [done |]. intros j c Hj Hc.
    apply caesar_outcome_in; [done | done |].
    exact (valid_text_lookup _ _ _ _ Hv Hj Hc).
  - split; [by apply vigenere_cipher_translated |].
    apply translated_shape; [done |]. intros j c Hj Hc.
    apply vigenere_outcome_in; [done | done | done | |].
    + by apply remove_spaces_in_alphabet.
    + exact (valid_text_lookup _ _ _ _ Hv Hj Hc).
  - split; [by apply atbash_cipher_translated |].
    apply translated_shape; [done |]. intros j c Hj Hc.
    apply atbash_outcome_in; [done |].
    exact (valid_text_lookup _ _ _ _ Hv Hj Hc).
Qed.

(** C10 at the text "ab cd" over "abcdef", Caesar key 2, Vigenere key "b a". *)
Lemma ciphers_preserve_shape_witness :
  (∃ out, caesar_cipher (lit "ab cd") 2 (lit "abcdef") true = Return out
          ∧ same_shape (lit "ab cd") out (lit "abcdef"))
  ∧ (∃ out, vigenere_cipher (lit "ab cd") (lit "b a") (lit "abcdef") true
            = Return out
            ∧ same_shape (lit "ab cd") out (lit "abcdef"))
  ∧ (∃ out, atbash_cipher (lit "ab cd") (lit "abcdef") true = Return out
            ∧ same_shape (lit "ab cd") out (lit "abcdef")).
Proof.
  apply (ciphers_preserve_shape
           (lit "ab cd") (lit "b a") (lit "abcdef") 2 true).
  - by vm_compute.
  - compute_done.
  - compute_done.
  - compute_done.
  - compute_done.
  - by vm_compute.
Defined.

(** C10 as stated fails: over "a b" the text "a" is valid and has no space,
    and [caesar_cipher] with the key 1 returns " ": a space at position 0
    where the input has none. *)
Lemma caesar_shape_space_in_alphabet :
  lit "a b" ≠ [] ∧ NoDup (lit "a b")
  ∧ Forall (λ c, c ∈ lit "a b" ∨ c = space) (lit "a")
  ∧ caesar_cipher (lit "a") 1 (lit "a b") true = Return (lit " ")
  ∧ lit " " !! 0%nat = Some space
  ∧ lit "a" !! 0%nat ≠ Some space
  ∧ ¬ same_shape (lit "a") (lit " ") (lit "a b").
Proof.
  split; [by vm_compute |]. split; [compute_done |]. split; [compute_done |].
  split; [by vm_compute |]. split; [by vm_compute |]. split; [by vm_compute |].
  intros (_ & Hspaces & _).
  by pose proof (proj1 (Hspaces 0%nat) eq_refl).
Qed.

(** * Further properties of ciphers.py *)

(** ** More on [translated] *)

Lemma translated_twice g g' h i (text : str) :
  (∀ (j : nat) c, text !! j = Some c → c ≠ space →
     g (i + Z.of_nat j) c ≠ space
     ∧ g' (i + Z.of_nat j) (g (i + Z.of_nat j) c) = h (i + Z.of_nat j) c) →
  translated g' i (translated g i text) = translated h i text.
Proof.
  intros Hgh. apply list_eq. intros j.
  rewrite !translated_lookup.
  destruct (text !! j) as [c|] eqn:Hj; simpl; [| done].
  f_equal. destruct (decide (c = space)) as [-> | Hc].
  - by rewrite decide_True.
  - destruct (Hgh j c Hj Hc) as [Hns Heq].
    by rewrite decide_False.
Qed.

Lemma translated_ext g h i (text : str) :
  (∀ (j : nat) c, text !! j = Some c → c ≠ space →
     g (i + Z.of_nat j) c = h (i + Z.of_nat j) c) →
  translated g i text = translated h i text.
Proof.
  intros Hgh. apply list_eq. intros j.
  rewrite !translated_lookup.
  destruct (text !! j) as [c|] eqn:Hj; simpl; [| done].
  f_equal. case_decide; [done | by apply Hgh].
Qed.

Lemma translated_id g i (text : str) :
  (∀ (j : nat) c, text !! j = Some c → c ≠ space →
     g (i + Z.of_nat j) c = c) →
  translated g i text = text.
Proof.
  intros Hg. apply list_eq. intros j.
  rewrite translated_lookup.
  destruct (text !! j) as [c|] eqn:Hj; simpl; [| done].
  f_equal. case_decide; [done | by apply Hg].
Qed.

Lemma translated_keeps_spaces g i (text : str) (p : nat) :
  text !! p = Some space → translated g i text !! p = Some space.
Proof. intros Hp. by rewrite translated_lookup, Hp. Qed.

(** ** The steps on any alphabet, also one with repeated characters *)

Lemma elem_of_nonempty (s : str) (c : char) : c ∈ s → s ≠ [].
Proof. intros Hc ->. by apply not_elem_of_nil in Hc. Qed.

Lemma str_getitem_elem (s : str) (i : Z) :
  0 ≤ i < len s → ∃ d, d ∈ s ∧ str_getitem s i = Return d.
Proof.
  intros Hi. destruct (str_getitem_lookup s i Hi) as (d & Hd & Hget).
  exists d. split; [by eapply list_elem_of_lookup_2 | done].
Qed.

Lemma caesar_step_total (alphabet : str) (key : Z) (encrypt : bool) i c :
  c ∈ alphabet →
  ∃ d, d ∈ alphabet
       ∧ caesar_step key alphabet encrypt (len alphabet) i c = Return d.
Proof.
  intros Hc. pose proof (len_pos _ (elem_of_nonempty _ _ Hc)) as Hn.
  unfold caesar_step, caesar_new_idx.
  destruct (str_index_elem alphabet c Hc) as (k & _ & ->).
  rewrite bind_Return.
  destruct encrypt; rewrite py_mod_pos, bind_Return by done;
    by apply str_getitem_elem, Z.mod_pos_bound.
Qed.

Lemma vigenere_step_total (key alphabet : str) (encrypt : bool) i c :
  key ≠ [] → Forall (λ x, x ∈ alphabet) key → c ∈ alphabet →
  ∃ d, d ∈ alphabet
       ∧ vigenere_step key alphabet encrypt (len alphabet) i c = Return d.
Proof.
  intros Hkey Hin Hc.
  pose proof (len_pos _ (elem_of_nonempty _ _ Hc)) as Hn.
  pose proof (len_pos _ Hkey) as Hlk.
  unfold vigenere_step.
  destruct (str_index_elem alphabet c Hc) as (k & _ & ->).
  rewrite bind_Return, py_mod_pos, bind_Return by done.
  destruct (str_getitem_elem key (i mod len key)) as (kc & Hkc & ->);
    [by apply Z.mod_pos_bound |].
  rewrite bind_Return.
  destruct (str_index_elem alphabet kc) as (q & _ & ->);
    [exact (proj1 (Forall_forall _ _) Hin kc Hkc) |].
  rewrite bind_Return.
  destruct encrypt; rewrite py_mod_pos, bind_Return by done;
    by apply str_getitem_elem, Z.mod_pos_bound.
Qed.

Lemma atbash_step_total (alphabet : str) i c :
  c ∈ alphabet →
  ∃ d, d ∈ alphabet
       ∧ atbash_step alphabet (reverse alphabet) i c = Return d.
Proof.
  intros Hc. unfold atbash_step.
  destruct (str_index_elem alphabet c Hc) as (k & Hk & ->).
  rewrite bind_Return.
  destruct (str_getitem_elem (reverse alphabet) (Z.of_nat k))
    as (d & Hd & ->).
  - apply lookup_lt_Some in Hk. unfold len. rewrite length_reverse. lia.
  - exists d. split; [by apply elem_of_reverse | done].
Qed.

(** A run of [translate] whose steps all return a character of the
    alphabet: the result, its length, its validity and its spaces. *)
Lemma translate_total step (text alphabet : str) :
  valid_text text alphabet →
  (∀ i c, c ∈ alphabet → ∃ d, d ∈ alphabet ∧ step i c = Return d) →
  ∃ out, translate step 0 text [] = Return out
         ∧ out = translated (outcome step) 0 text
         ∧ length out = length text
         ∧ valid_text out alphabet
         ∧ ∀ p : nat, text !! p = Some space → out !! p = Some space.
Proof.
  intros Hv Hstep. eexists. split; [| split; [done |]].
  - rewrite translate_ok; [done |]. intros j c Hj Hc.
    destruct (Hstep (0 + Z.of_nat j) c) as (d & _ & Hd);
      [exact (valid_text_lookup _ _ _ _ Hv Hj Hc) | by exists d].
  - split; [apply length_translated |]. split.
    + apply valid_text_translated. intros j c Hj Hc.
      destruct (Hstep (0 + Z.of_nat j) c) as (d & Hin & Hd);
        [exact (valid_text_lookup _ _ _ _ Hv Hj Hc) |].
      unfold outcome. by rewrite Hd.
    + intros p. apply translated_keeps_spaces.
Qed.

Lemma translate_spaces step i (text acc : str) :
  Forall (λ c, c = space) text →
  translate step i text acc = Return (acc ++ text).
Proof.
  intros Hsp. revert i acc.
  induction Hsp as [|c text Hc _ IH]; intros i acc; cbn [translate].
  - by rewrite app_nil_r.
  - case_decide; [| done]. subst c. rewrite IH. by rewrite <- app_assoc.
Qed.

Lemma vigenere_step_empty_key (alphabet : str) (encrypt : bool) n i c :
  c ∈ alphabet →
  vigenere_step [] alphabet encrypt n i c
  = Raise (ZeroDivisionError, msg_builtin).
Proof.
  intros Hc. unfold vigenere_step.
  destruct (str_index_elem alphabet c Hc) as (k & _ & ->).
  by rewrite bind_Return.
Qed.

(** ** Every outcome of the three ciphers, on every input *)

(** X1. On every input, also with an alphabet that is empty or has repeated
    characters, [caesar_cipher] either returns a text of the length of the
    input that is again valid over the alphabet and has a space wherever the
    input has one, or raises the [AlphabetError] of the first character of
    the text that is neither in the alphabet nor a space. *)
Theorem caesar_cipher_outcomes (text alphabet : str) (key : Z) (encrypt : bool) :
  (valid_text text alphabet
   ∧ ∃ out, caesar_cipher text key alphabet encrypt = Return out
            ∧ length out = length text
            ∧ valid_text out alphabet
            ∧ ∀ p : nat, text !! p = Some space → out !! p = Some space)
  ∨ (∃ pre c post,
       text = pre ++ c :: post
       ∧ valid_text pre alphabet ∧ (c ∉ alphabet) ∧ (c ≠ space)
       ∧ caesar_cipher text key alphabet encrypt
         = Raise (AlphabetError, msg_char_not_found c)).
Proof.
  unfold caesar_cipher.
  destruct (validate_text_cases text alphabet)
    as [Hok | (pre & c & post & Htext & Hpre & Hc & Hs & Hraise)].
  - left. pose proof (proj1 (validate_text_valid _ _) Hok) as Hv.
    split; [done |]. rewrite Hok, bind_Return. cbv zeta.
    rewrite caesar_loop_translate.
    destruct (translate_total (caesar_step key alphabet encrypt (len alphabet))
                text alphabet Hv) as (out & -> & _ & Hout);
      [intros i c; apply caesar_step_total |].
    by exists out.
  - right. exists pre, c, post. by rewrite Hraise.
Qed.

(** X2. On every input [atbash_cipher] either returns a text of the length
    of the input that is again valid over the alphabet and has a space
    wherever the input has one, or raises the [AlphabetError] of the first
    invalid character of the text. *)
Theorem atbash_cipher_outcomes (text alphabet : str) (encrypt : bool) :
  (valid_text text alphabet
   ∧ ∃ out, atbash_cipher text alphabet encrypt = Return out
            ∧ length out = length text
            ∧ valid_text out alphabet
            ∧ ∀ p : nat, text !! p = Some space → out !! p = Some space)
  ∨ (∃ pre c post,
       text = pre ++ c :: post
       ∧ valid_text pre alphabet ∧ (c ∉ alphabet) ∧ (c ≠ space)
       ∧ atbash_cipher text alphabet encrypt
         = Raise (AlphabetError, msg_char_not_found c)).
Proof.
  unfold atbash_cipher.
  destruct (validate_text_cases text alphabet)
    as [Hok | (pre & c & post & Htext & Hpre & Hc & Hs & Hraise)].
  - left. pose proof (proj1 (validate_text_valid _ _) Hok) as Hv.
    split; [done |]. rewrite Hok, bind_Return. cbv zeta.
    rewrite atbash_loop_translate.
    destruct (translate_total (atbash_step alphabet (reverse alphabet))
                text alphabet Hv) as (out & -> & _ & Hout);
      [intros i c; apply atbash_step_total |].
    by exists out.
  - right. exists pre, c, post. by rewrite Hraise.
Qed.

(** X3. Every outcome of [vigenere_cipher], in the order the code decides
    them: the [AlphabetError] of the first invalid character of the text;
    else that of the first invalid character of the key; else the
    [CipherError] of the empty key; else, for a key of spaces only, the text
    itself when it holds nothing but spaces and [ZeroDivisionError] when it
    holds anything else; else a text of the length of the input, valid over
    the alphabet, with a space wherever the input has one. No other
    exception is raised. *)
Theorem vigenere_cipher_outcomes (text key alphabet : str) (encrypt : bool) :
  (∃ pre c post,
     text = pre ++ c :: post
     ∧ valid_text pre alphabet ∧ (c ∉ alphabet) ∧ (c ≠ space)
     ∧ vigenere_cipher text key alphabet encrypt
       = Raise (AlphabetError, msg_char_not_found c))
  ∨ (valid_text text alphabet
     ∧ ∃ pre c post,
         key = pre ++ c :: post
         ∧ valid_text pre alphabet ∧ (c ∉ alphabet) ∧ (c ≠ space)
         ∧ vigenere_cipher text key alphabet encrypt
           = Raise (AlphabetError, msg_char_not_found c))
  ∨ (valid_text text alphabet ∧ key = []
     ∧ vigenere_cipher text key alphabet encrypt
       = Raise (CipherError, msg_empty_key))
  ∨ (valid_text text alphabet ∧ key ≠ [] ∧ Forall (λ c, c = space) key
     ∧ Forall (λ c, c = space) text
     ∧ vigenere_cipher text key alphabet encrypt = Return text)
  ∨ (valid_text text alphabet ∧ key ≠ [] ∧ Forall (λ c, c = space) key
     ∧ (∃ c, c ∈ text ∧ c ≠ space)
     ∧ vigenere_cipher text key alphabet encrypt
       = Raise (ZeroDivisionError, msg_builtin))
  ∨ (valid_text text alphabet ∧ valid_text key alphabet
     ∧ (∃ c, c ∈ key ∧ c ≠ space)
     ∧ ∃ out, vigenere_cipher text key alphabet encrypt = Return out
              ∧ length out = length text
              ∧ valid_text out alphabet
              ∧ ∀ p : nat, text !! p = Some space → out !! p = Some space).
Proof.
  unfold vigenere_cipher.
  destruct (validate_text_cases text alphabet)
    as [Hok | (pre & c & post & Htext & Hpre & Hc & Hs & Hraise)].
  2: { left. exists pre, c, post. by rewrite Hraise. }
  right. pose proof (proj1 (validate_text_valid _ _) Hok) as Hv.
  rewrite Hok, bind_Return.
  destruct (validate_text_cases key alphabet)
    as [Hkok | (pre & c & post & Hkey & Hpre & Hc & Hs & Hraise)].
  2: { left. split; [done |]. exists pre, c, post. by rewrite Hraise. }
  right. pose proof (proj1 (validate_text_valid _ _) Hkok) as Hkv.
  rewrite Hkok, bind_Return.
  case_decide as Hempty; [by left |].
  right. cbv zeta. rewrite vigenere_loop_translate.
  destruct (decide (Forall (λ c, c = space) key)) as [Hblank | Hletters].
  - assert (remove_spaces key = []) as ->.
    { clear -Hblank. induction Hblank as [|c key -> _ IH]; [done |].
      unfold remove_spaces in *.
      by rewrite filter_cons_False by (by intros ?). }
    destruct (decide (Forall (λ c, c = space) text)) as [Hsp | Hnsp].
    + left. by rewrite translate_spaces.
    + right. left. apply not_Forall_Exists in Hnsp; [| apply _].
      apply Exists_exists in Hnsp as (c & Hin & Hc).
      split; [done |]. split; [done |]. split; [done |].
      split; [by exists c |].
      apply translate_raise; [| by exists c].
      intros j c' Hj Hc'. apply vigenere_step_empty_key.
      exact (valid_text_lookup _ _ _ _ Hv Hj Hc').
  - right. right. apply not_Forall_Exists in Hletters; [| apply _].
    apply Exists_exists in Hletters as (c & Hin & Hc).
    split; [done |]. split; [done |]. split; [by exists c |].
    destruct (translate_total
                (vigenere_step (remove_spaces key) alphabet encrypt
                   (len alphabet)) text alphabet Hv)
      as (out & -> & _ & Hout); [| by exists out].
    intros i x Hx. apply vigenere_step_total; [| | done].
    + apply (elem_of_nonempty _ c). by apply list_elem_of_filter.
    + by apply remove_spaces_in_alphabet.
Qed.

(** ** The algebra of the Caesar shifts *)

Section caesar_shifts.

Variable alphabet : str.
Hypothesis alphabet_nonempty : alphabet ≠ [].
Hypothesis alphabet_NoDup : NoDup alphabet.

(** Two steps in a row are one step with the sum of the signed keys. *)
Lemma caesar_outcome_twice (key1 key2 : Z) (mode1 mode2 : bool) i c :
  c ∈ alphabet →
  outcome (caesar_step key2 alphabet mode2 (len alphabet)) i
    (outcome (caesar_step key1 alphabet mode1 (len alphabet)) i c)
  = outcome (caesar_step ((if mode1 then key1 else - key1)
                          + (if mode2 then key2 else - key2))
               alphabet true (len alphabet)) i c.
Proof using alphabet_nonempty alphabet_NoDup.
  intros [k Hk]%list_elem_of_lookup_1.
  pose proof (len_pos _ alphabet_nonempty) as Hn.
  pose proof (caesar_outcome alphabet alphabet_nonempty alphabet_NoDup
                key1 mode1 i k c Hk) as H1.
  pose proof (caesar_outcome alphabet alphabet_nonempty alphabet_NoDup
                key2 mode2 i _ _ H1) as H2.
  pose proof (caesar_outcome alphabet alphabet_nonempty alphabet_NoDup
                ((if mode1 then key1 else - key1)
                 + (if mode2 then key2 else - key2)) true i k c Hk) as H3.
  cbv beta iota in H3.
  rewrite Z2Nat.id in H2 by (apply Z.mod_pos_bound; lia).
  assert (Some (outcome (caesar_step key2 alphabet mode2 (len alphabet)) i
                  (outcome (caesar_step key1 alphabet mode1 (len alphabet))
                     i c))
          = Some (outcome (caesar_step ((if mode1 then key1 else - key1)
                                        + (if mode2 then key2 else - key2))
                             alphabet true (len alphabet)) i c)) as Heq;
    [| by injection Heq].
  rewrite <- H2, <- H3. do 2 f_equal.
  destruct mode1, mode2;
    rewrite ?Zplus_mod_idemp_l, ?Zminus_mod_idemp_l; f_equal; lia.
Qed.

(** A key that is a multiple of the length of the alphabet changes
    nothing. *)
Lemma caesar_outcome_id (key : Z) (encrypt : bool) i c :
  key mod len alphabet = 0 → c ∈ alphabet →
  outcome (caesar_step key alphabet encrypt (len alphabet)) i c = c.
Proof using alphabet_nonempty alphabet_NoDup.
  intros Hkey [k Hk]%list_elem_of_lookup_1.
  pose proof (len_pos _ alphabet_nonempty) as Hn.
  pose proof (lookup_len _ _ _ Hk) as Hkn.
  pose proof (caesar_outcome alphabet alphabet_nonempty alphabet_NoDup
                key encrypt i k c Hk) as Hout.
  assert ((if encrypt then Z.of_nat k + key else Z.of_nat k - key)
            mod len alphabet = Z.of_nat k) as Hidx.
  { destruct encrypt.
    - rewrite <- Zplus_mod_idemp_r, Hkey, Z.add_0_r. by apply Z.mod_small.
    - rewrite <- Zminus_mod_idemp_r, Hkey, Z.sub_0_r. by apply Z.mod_small. }
  rewrite Hidx, Nat2Z.id in Hout. congruence.
Qed.

End caesar_shifts.

(** X4. On every input decrypting with the key [k] is encrypting with the
    key [-k]: the same result or the same exception. *)
Theorem caesar_decrypt_is_encrypt_negated (text alphabet : str) (key : Z) :
  caesar_cipher text key alphabet false
  = caesar_cipher text (- key) alphabet true.
Proof.
  unfold caesar_cipher.
  destruct (validate_text text alphabet); simpl; [| done].
  rewrite !caesar_loop_translate. apply translate_ext.
  intros j c. unfold caesar_step, caesar_new_idx.
  destruct (str_index alphabet c) as [idx|]; simpl; [| done].
  by rewrite Z.add_opp_r.
Qed.

(** X5. Over a non-empty duplicate-free alphabet without the space
    character, applying [caesar_cipher] twice to a valid text, with any two
    keys and modes, is encrypting once with the sum of the two keys, each
    counted negative when its mode is decryption. *)
Theorem caesar_cipher_compose
    (text alphabet : str) (key1 key2 : Z) (mode1 mode2 : bool) :
  alphabet ≠ [] → NoDup alphabet → space ∉ alphabet →
  valid_text text alphabet →
  ∃ once,
    caesar_cipher text key1 alphabet mode1 = Return once
    ∧ caesar_cipher once key2 alphabet mode2
      = caesar_cipher text ((if mode1 then key1 else - key1)
                            + (if mode2 then key2 else - key2))
          alphabet true.
Proof.
  intros Hne Hnd Hsp Hv. eexists.
  split; [by apply caesar_cipher_translated |].
  rewrite !caesar_cipher_translated; [f_equal | done.. |].
  - apply translated_twice. intros j c Hj Hc.
    pose proof (valid_text_lookup _ _ _ _ Hv Hj Hc) as Hin.
    split; [| by apply caesar_outcome_twice].
    intros Heq. destruct Hsp. rewrite <- Heq. by apply caesar_outcome_in.
  - apply valid_text_translated. intros j c Hj Hc.
    apply caesar_outcome_in; [done | done |].
    exact (valid_text_lookup _ _ _ _ Hv Hj Hc).
Qed.

(** X5 at "ace" over "abcdef": encrypting with 2 and then with 5 is
    encrypting with 7. *)
Lemma caesar_cipher_compose_witness :
  ∃ once,
    caesar_cipher (lit "ace") 2 (lit "abcdef") true = Return once
    ∧ caesar_cipher once 5 (lit "abcdef") true
      = caesar_cipher (lit "ace") (2 + 5) (lit "abcdef") true.
Proof.
  apply (caesar_cipher_compose (lit "ace") (lit "abcdef") 2 5 true true).
  - by vm_compute.
  - compute_done.
  - compute_done.
  - compute_done.
Defined.

(** X6. Over a non-empty duplicate-free alphabet, with or without the space
    character, a key that is a multiple of the length of the alphabet (0
    among them) leaves every valid text unchanged, in either mode. *)
Theorem caesar_cipher_key_multiple
    (text alphabet : str) (key : Z) (encrypt : bool) :
  alphabet ≠ [] → NoDup alphabet → valid_text text alphabet →
  key mod len alphabet = 0 →
  caesar_cipher text key alphabet encrypt = Return text.
Proof.
  intros Hne Hnd Hv Hkey.
  rewrite caesar_cipher_translated by done. f_equal.
  apply translated_id. intros j c Hj Hc.
  apply caesar_outcome_id; [done | done | done |].
  exact (valid_text_lookup _ _ _ _ Hv Hj Hc).
Qed.

(** X6 at the key -12 over the six characters "a bcde", which hold a
    space. *)
Lemma caesar_cipher_key_multiple_witness :
  caesar_cipher (lit "bead") (-12) (lit "a bcde") true = Return (lit "bead").
Proof.
  apply (caesar_cipher_key_multiple (lit "bead") (lit "a bcde") (-12) true).
  - by vm_compute.
  - compute_done.
  - compute_done.
  - by vm_compute.
Defined.

(** X7. The round trip in the other order: over a non-empty duplicate-free
    alphabet without the space character, decrypting a valid text and then
    encrypting the result with the same key returns the text. *)
Theorem caesar_decrypt_then_encrypt (text alphabet : str) (key : Z) :
  alphabet ≠ [] → NoDup alphabet → space ∉ alphabet →
  valid_text text alphabet →
  ∃ decrypted,
    caesar_cipher text key alphabet false = Return decrypted
    ∧ caesar_cipher decrypted key alphabet true = Return text.
Proof.
  intros Hne Hnd Hsp Hv. eexists.
  split; [by apply caesar_cipher_translated |].
  rewrite caesar_cipher_translated; [f_equal | done | done |].
  - rewrite (translated_twice _ _
               (outcome (caesar_step (- key + key) alphabet true
                           (len alphabet)))).
    + apply translated_id. intros j c Hj Hc.
      apply caesar_outcome_id; [done | done | |].
      * by rewrite Z.add_opp_diag_l.
      * exact (valid_text_lookup _ _ _ _ Hv Hj Hc).
    + intros j c Hj Hc.
      pose proof (valid_text_lookup _ _ _ _ Hv Hj Hc) as Hin.
      split; [| by apply (caesar_outcome_twice _ Hne Hnd key key false true)].
      intros Heq. destruct Hsp. rewrite <- Heq. by apply caesar_outcome_in.
  - apply valid_text_translated. intros j c Hj Hc.
    apply caesar_outcome_in; [done | done |].
    exact (valid_text_lookup _ _ _ _ Hv Hj Hc).
Qed.

(** X7 at "cea" over "abcdef" with the key 2. *)
Lemma caesar_decrypt_then_encrypt_witness :
  ∃ decrypted,
    caesar_cipher (lit "cea") 2 (lit "abcdef") false = Return decrypted
    ∧ caesar_cipher decrypted 2 (lit "abcdef") true = Return (lit "cea").
Proof.
  apply (caesar_decrypt_then_encrypt (lit "cea") (lit "abcdef") 2).
  - by vm_compute.
  - compute_done.
  - compute_done.
  - compute_done.
Defined.

(** ** Vigenere: the other round trip, one-character keys, spaces in keys *)

Lemma vigenere_outcome_inverse_rev (key alphabet : str) i c :
  alphabet ≠ [] → NoDup alphabet →
  key ≠ [] → Forall (λ x, x ∈ alphabet) key → c ∈ alphabet →
  outcome (vigenere_step key alphabet true (len alphabet)) i
    (outcome (vigenere_step key alphabet false (len alphabet)) i c) = c.
Proof.
  intros Hne Hnd Hkey Hin [k Hk]%list_elem_of_lookup_1.
  pose proof (len_pos _ Hne) as Hn.
  pose proof (lookup_len _ _ _ Hk) as Hkn.
  destruct (vigenere_outcome alphabet Hne Hnd key false i k c Hkey Hin Hk)
    as (q & kc & Hkc & Hq & Hd).
  destruct (vigenere_outcome alphabet Hne Hnd key true i _ _ Hkey Hin Hd)
    as (q' & kc' & Hkc' & Hq' & He).
  assert (kc' = kc) as -> by congruence.
  assert (q' = q) as -> by (by eapply NoDup_lookup).
  rewrite Z2Nat.id in He by (apply Z.mod_pos_bound; lia).
  rewrite Zplus_mod_idemp_l in He.
  replace (Z.of_nat k - Z.of_nat q + Z.of_nat q) with (Z.of_nat k) in He
    by lia.
  rewrite Z.mod_small, Nat2Z.id in He by lia.
  congruence.
Qed.

(** X8. Over a non-empty duplicate-free alphabet without the space
    character, decrypting a valid text with a non-empty key of characters of
    the alphabet and then encrypting the result with the same key returns
    the text. *)
Theorem vigenere_decrypt_then_encrypt (text key alphabet : str) :
  alphabet ≠ [] → NoDup alphabet → space ∉ alphabet →
  valid_text text alphabet →
  key ≠ [] → Forall (λ x, x ∈ alphabet) key →
  ∃ decrypted,
    vigenere_cipher text key alphabet false = Return decrypted
    ∧ vigenere_cipher decrypted key alphabet true = Return text.
Proof.
  intros Hne Hnd Hsp Hv Hkey Hin.
  assert (valid_text key alphabet) as Hkv
    by (eapply Forall_impl; [exact Hin | by left]).
  pose proof (remove_spaces_no_space _ _ Hsp Hin) as Hrm.
  assert (remove_spaces key ≠ []) as Hkey' by congruence.
  eexists.
  split; [by apply vigenere_cipher_translated |].
  rewrite vigenere_cipher_translated; [f_equal | done | done | | done |done].
  - rewrite Hrm. apply translated_inverse. intros j c Hj Hc.
    pose proof (valid_text_lookup _ _ _ _ Hv Hj Hc) as Hc_in.
    split; [| by apply vigenere_outcome_inverse_rev].
    intros Heq. destruct Hsp. rewrite <- Heq.
    by apply vigenere_outcome_in.
  - rewrite Hrm. apply valid_text_translated. intros j c Hj Hc.
    apply vigenere_outcome_in; [done | done | done | done |].
    exact (valid_text_lookup _ _ _ _ Hv Hj Hc).
Qed.

(** X8 at "bb ce" over "abcdef" with the key "ba". *)
Lemma vigenere_decrypt_then_encrypt_witness :
  ∃ decrypted,
    vigenere_cipher (lit "bb ce") (lit "ba") (lit "abcdef") false
    = Return decrypted
    ∧ vigenere_cipher decrypted (lit "ba") (lit "abcdef") true
      = Return (lit "bb ce").
Proof.
  apply (vigenere_decrypt_then_encrypt (lit "bb ce") (lit "ba") (lit "abcdef")).
  - by vm_compute.
  - compute_done.
  - compute_done.
  - compute_done.
  - by vm_compute.
  - compute_done.
Defined.

(** X9. A key of one character of the alphabet, not the space, makes
    [vigenere_cipher] the Caesar cipher whose key is the position of that
    character: on every text and in either mode the two calls end the same
    way. *)
Theorem vigenere_one_char_key_is_caesar (alphabet : str) (k : char) :
  k ∈ alphabet → k ≠ space →
  ∃ key_idx,
    str_index alphabet k = Return key_idx
    ∧ ∀ (text : str) (encrypt : bool),
        vigenere_cipher text [k] alphabet encrypt
        = caesar_cipher text key_idx alphabet encrypt.
Proof.
  intros Hk Hns. destruct (str_index_elem alphabet k Hk) as (q & _ & Hq).
  exists (Z.of_nat q). split; [done |]. intros text encrypt.
  unfold vigenere_cipher, caesar_cipher.
  destruct (validate_text text alphabet); simpl; [| done].
  rewrite decide_False by tauto. simpl.
  unfold remove_spaces. rewrite filter_cons_True, filter_nil by done.
  rewrite vigenere_loop_translate, caesar_loop_translate.
  apply translate_ext. intros j c.
  unfold vigenere_step, caesar_step, caesar_new_idx.
  destruct (str_index alphabet c) as [idx|]; simpl; [| done].
  change (len [k]) with 1. rewrite Z.mod_1_r.
  change (str_getitem [k] 0) with (Return (A := N) k).
  rewrite bind_Return, Hq, bind_Return. by destruct encrypt.
Qed.

(** X9 at the key "c" over "abcdef": the Caesar key is 2. *)
Lemma vigenere_one_char_key_is_caesar_witness :
  vigenere_cipher (lit "ab cd") [N_of_ascii "c"] (lit "abcdef") true
  = caesar_cipher (lit "ab cd") 2 (lit "abcdef") true.
Proof.
  destruct (vigenere_one_char_key_is_caesar (lit "abcdef") (N_of_ascii "c"))
    as (key_idx & Hidx & Hsame).
  - compute_done.
  - by vm_compute.
  - vm_compute in Hidx. injection Hidx as <-. apply Hsame.
Defined.

Lemma remove_spaces_idemp (key : str) :
  remove_spaces (remove_spaces key) = remove_spaces key.
Proof.
  unfold remove_spaces. induction key as [|c key IH]; [done |].
  destruct (decide (c = space)) as [-> | Hc].
  - by rewrite filter_cons_False by (by intros ?).
  - rewrite !filter_cons_True by done. by rewrite IH.
Qed.

Lemma validate_text_remove_spaces (key alphabet : str) :
  validate_text (remove_spaces key) alphabet = validate_text key alphabet.
Proof.
  unfold remove_spaces. induction key as [|c key IH]; [done |].
  destruct (decide (c = space)) as [-> | Hc].
  - rewrite filter_cons_False by (by intros ?). simpl.
    rewrite decide_False by tauto. done.
  - rewrite filter_cons_True by done. simpl. by rewrite IH.
Qed.

(** X10. Spaces in a Vigenere key are ignored: a key with at least one
    character other than the space gives, on every text and alphabet and in
    either mode, the outcome of the key with its spaces removed. *)
Theorem vigenere_key_spaces_ignored
    (text key alphabet : str) (encrypt : bool) :
  remove_spaces key ≠ [] →
  vigenere_cipher text key alphabet encrypt
  = vigenere_cipher text (remove_spaces key) alphabet encrypt.
Proof.
  intros Hkey. unfold vigenere_cipher.
  rewrite validate_text_remove_spaces, remove_spaces_idemp.
  destruct (validate_text text alphabet); simpl; [| done].
  destruct (validate_text key alphabet); simpl; [| done].
  rewrite (decide_False (P := remove_spaces key = [])) by done.
  case_decide as Hempty; [| done].
  subst key. by destruct Hkey.
Qed.

(** X10 at the key "b a" over "abcdef": the result of the key "ba". *)
Lemma vigenere_key_spaces_ignored_witness :
  vigenere_cipher (lit "ab cd") (lit "b a") (lit "abcdef") true
  = vigenere_cipher (lit "ab cd") (remove_spaces (lit "b a")) (lit "abcdef")
      true.
Proof.
  apply (vigenere_key_spaces_ignored
           (lit "ab cd") (lit "b a") (lit "abcdef") true).
  by vm_compute.
Defined.

(** ** The substitution tables: the ciphers applied to the alphabet itself *)

Lemma valid_text_alphabet (alphabet : str) : valid_text alphabet alphabet.
Proof. apply Forall_forall. intros c Hc. by left. Qed.

(** X11. The Atbash table is the mirrored alphabet: over a duplicate-free
    alphabet without the space character, [atbash_cipher] applied to the
    alphabet itself returns the alphabet reversed. *)
Theorem atbash_cipher_alphabet (alphabet : str) (encrypt : bool) :
  NoDup alphabet → space ∉ alphabet →
  atbash_cipher alphabet alphabet encrypt = Return (reverse alphabet).
Proof.
  intros Hnd Hsp.
  rewrite atbash_cipher_translated by auto using valid_text_alphabet.
  f_equal. apply list_eq. intros j. rewrite translated_lookup.
  destruct (alphabet !! j) as [c|] eqn:Hj; simpl.
  - rewrite decide_False
      by (intros ->; by apply Hsp, (list_elem_of_lookup_2 _ j)).
    rewrite reverse_lookup by (by eapply lookup_lt_Some).
    symmetry. by apply atbash_outcome.
  - symmetry. apply lookup_ge_None. rewrite length_reverse.
    by apply lookup_ge_None.
Qed.

(** X11 at "abcdef". *)
Lemma atbash_cipher_alphabet_witness :
  atbash_cipher (lit "abcdef") (lit "abcdef") true
  = Return (reverse (lit "abcdef")).
Proof.
  apply (atbash_cipher_alphabet (lit "abcdef") true); compute_done.
Defined.

(** X12. The Caesar table is the rotated alphabet: over a non-empty
    duplicate-free alphabet without the space character, [caesar_cipher]
    applied to the alphabet itself returns the alphabet rotated to the left
    by the key modulo its length, the key counted negative when
    decrypting. *)
Theorem caesar_cipher_alphabet (alphabet : str) (key : Z) (encrypt : bool) :
  alphabet ≠ [] → NoDup alphabet → space ∉ alphabet →
  caesar_cipher alphabet key alphabet encrypt
  = Return (rotate (Z.to_nat ((if encrypt then key else - key)
                              mod len alphabet)) alphabet).
Proof.
  intros Hne Hnd Hsp. pose proof (len_pos _ Hne) as Hn.
  rewrite caesar_cipher_translated by auto using valid_text_alphabet.
  f_equal. apply list_eq. intros j. rewrite translated_lookup.
  destruct (alphabet !! j) as [c|] eqn:Hj; simpl.
  - rewrite decide_False
      by (intros ->; by apply Hsp, (list_elem_of_lookup_2 _ j)).
    rewrite lookup_rotate_r by (by eapply lookup_lt_Some).
    rewrite <- (caesar_outcome alphabet Hne Hnd key encrypt
                  (0 + Z.of_nat j) j c Hj).
    unfold rotate_nat_add. fold (len alphabet).
    rewrite Z2Nat.id by (apply Z.mod_pos_bound; lia).
    rewrite Zplus_mod_idemp_l. do 2 f_equal.
    destruct encrypt; f_equal; lia.
  - symmetry. apply lookup_ge_None. rewrite length_rotate.
    by apply lookup_ge_None.
Qed.

(** X12 at "abcdef" with the key 2: "cdefab". *)
Lemma caesar_cipher_alphabet_witness :
  caesar_cipher (lit "abcdef") 2 (lit "abcdef") true
  = Return (rotate (Z.to_nat (2 mod len (lit "abcdef"))) (lit "abcdef")).
Proof.
  apply (caesar_cipher_alphabet (lit "abcdef") 2 true).
  - by vm_compute.
  - compute_done.
  - compute_done.
Defined.

(** ** What [read_alphabet] returns can be loaded again *)

Lemma lstrip_head (s : str) (c : char) :
  head (lstrip s) = Some c → isspace c = false.
Proof.
  induction s as [|x s IH]; simpl; [done |].
  destruct (isspace x) eqn:Hx; [done |]. by intros [= <-].
Qed.

Lemma lstrip_id (s : str) :
  (∀ c, head s = Some c → isspace c = false) → lstrip s = s.
Proof.
  destruct s as [|x s]; simpl; [done |].
  intros Hx. by rewrite (Hx x eq_refl).
Qed.

Lemma strip_head (s : str) (c : char) :
  head (strip s) = Some c → isspace c = false.
Proof.
  intros Hc. apply (lstrip_head s).
  destruct (rstrip_spec (lstrip s)) as (post & Hpost & _).
  rewrite Hpost. fold (strip s).
  destruct (strip s); [done | by simpl in *].
Qed.

Lemma strip_last (s : str) (c : char) :
  last (strip s) = Some c → isspace c = false.
Proof.
  unfold strip, rstrip. rewrite last_reverse. apply lstrip_head.
Qed.

Lemma strip_idemp (s : str) : strip (strip s) = strip s.
Proof.
  unfold strip at 1.
  rewrite (lstrip_id (strip s)) by apply strip_head.
  unfold rstrip. rewrite lstrip_id; [by rewrite reverse_involutive |].
  intros c. rewrite head_reverse. apply strip_last.
Qed.

(** X13. An alphabet that [read_alphabet] returns has no white space at
    either end, and a file that holds exactly that alphabet loads as the
    same alphabet. *)
Theorem read_alphabet_reload
    (fs : gmap string str) (filepath : string) (alphabet : str) :
  read_alphabet fs filepath = Return alphabet →
  (∃ c, head alphabet = Some c ∧ isspace c = false)
  ∧ (∃ c, last alphabet = Some c ∧ isspace c = false)
  ∧ ∀ (fs' : gmap string str) (filepath' : string),
      fs' !! filepath' = Some alphabet →
      read_alphabet fs' filepath' = Return alphabet.
Proof.
  unfold read_alphabet at 1.
  destruct (fs !! filepath) as [content|]; [| done]. cbv zeta.
  case_decide as Hempty; [done |]. case_decide as Hsize; [done |].
  intros [= <-].
  split; [| split].
  - destruct (head (strip content)) as [c|] eqn:Hc.
    + exists c. split; [done | by apply (strip_head content)].
    + by apply head_None in Hc.
  - destruct (last (strip content)) as [c|] eqn:Hc.
    + exists c. split; [done | by apply (strip_last content)].
    + by apply last_None in Hc.
  - intros fs' filepath' Hfile. unfold read_alphabet.
    rewrite Hfile. cbv zeta. rewrite strip_idemp.
    case_decide; [done |]. by case_decide.
Qed.

(** X13 at a file that holds "abc" between a space and a newline: a second
    file with "abc" alone loads as "abc". *)
Lemma read_alphabet_reload_witness :
  read_alphabet {[ "copy.txt"%string := lit "abc" ]} "copy.txt"
  = Return (lit "abc").
Proof.
  destruct (read_alphabet_reload
              {[ "alphabet.txt"%string := space :: lit "abc" ++ [10%N] ]}
              "alphabet.txt" (lit "abc")) as (_ & _ & Hreload).
  - by vm_compute.
  - apply Hreload. by vm_compute.
Defined.

(** ** A key written twice *)

Lemma str_getitem_double (key : str) (i : Z) :
  key ≠ [] →
  str_getitem (key ++ key) (i mod len (key ++ key))
  = str_getitem key (i mod len key).
Proof.
  intros Hkey. pose proof (len_pos _ Hkey) as Hl.
  assert (len (key ++ key) = len key * 2) as ->
    by (unfold len; rewrite length_app; lia).
  rewrite Z.rem_mul_r by lia.
  pose proof (Z.mod_pos_bound i (len key) Hl) as Hr.
  pose proof (Z.mod_pos_bound (i / len key) 2 eq_refl) as Hq.
  destruct (str_getitem_lookup key (i mod len key) Hr) as (d & Hd & ->).
  destruct (str_getitem_lookup (key ++ key)
              (i mod len key + len key * ((i / len key) mod 2)))
    as (d' & Hd' & ->).
  { unfold len in *. rewrite length_app. nia. }
  f_equal.
  assert ((i / len key) mod 2 = 0 ∨ (i / len key) mod 2 = 1) as [Hz | Hz]
    by lia; rewrite Hz in Hd'.
  - rewrite Z.mul_0_r, Z.add_0_r in Hd'.
    rewrite lookup_app_l in Hd' by (unfold len in *; lia). congruence.
  - rewrite Z.mul_1_r in Hd'.
    rewrite lookup_app_r in Hd' by (unfold len in *; lia).
    replace (Z.to_nat (i mod len key + len key) - length key)%nat
      with (Z.to_nat (i mod len key)) in Hd' by (unfold len in *; lia).
    congruence.
Qed.

Lemma validate_text_double (key alphabet : str) :
  validate_text (key ++ key) alphabet = validate_text key alphabet.
Proof.
  destruct (validate_text_cases key alphabet)
    as [Hok | (pre & c & post & -> & Hpre & Hc & Hs & Hraise)].
  - rewrite Hok. apply validate_text_valid, Forall_app.
    by split; apply validate_text_valid.
  - rewrite Hraise, <- app_assoc. simpl.
    by apply validate_text_first_offender.
Qed.

(** X14. Writing the key twice changes nothing: on every text, key and
    alphabet and in either mode, [vigenere_cipher] with the key followed by
    itself ends as it does with the key. *)
Theorem vigenere_key_doubled (text key alphabet : str) (encrypt : bool) :
  vigenere_cipher text (key ++ key) alphabet encrypt
  = vigenere_cipher text key alphabet encrypt.
Proof.
  unfold vigenere_cipher. rewrite validate_text_double.
  destruct (validate_text text alphabet); simpl; [| done].
  destruct (validate_text key alphabet); simpl; [| done].
  destruct key as [|k key]; [done |].
  rewrite !decide_False by done.
  rewrite !vigenere_loop_translate. apply translate_ext. intros j c.
  unfold remove_spaces. rewrite filter_app.
  fold (remove_spaces (k :: key)).
  unfold vigenere_step.
  destruct (str_index alphabet c) as [idx|]; simpl; [| done].
  destruct (decide (remove_spaces (k :: key) = [])) as [-> | Hkey]; [done |].
  rewrite !py_mod_pos, !bind_Return; [| by apply len_pos | apply len_pos].
  - by rewrite str_getitem_double.
  - intros [Hnil _]%app_eq_nil. done.
Qed.

(** * Properties of the console helpers of main.py *)

(** X15. [get_text] returns the first line that is not blank, stripped,
    leaving the lines after it unread; before it, it prompts and prints one
    error for each blank line; when every line is blank it ends with the
    [EOFError] of [input()], after a last prompt. *)
Theorem get_text_first_nonblank (stdin : list str) :
  (∃ blanks line rest,
     stdin = blanks ++ line :: rest
     ∧ Forall blank blanks ∧ strip line ≠ []
     ∧ get_text stdin
       = (flat_map (λ _, [prompt_text; err_text_empty]) blanks
            ++ [prompt_text],
          Some (strip line, rest)))
  ∨ (Forall blank stdin
     ∧ get_text stdin
       = (flat_map (λ _, [prompt_text; err_text_empty]) stdin
            ++ [prompt_text], None)).
Proof.
  induction stdin as [|line rest IH]; simpl.
  - right. by split.
  - case_decide as Hline.
    + left. by exists [], line, rest.
    + assert (blank line) as Hblank
        by (unfold blank; by destruct (decide (strip line = []))).
      destruct IH as [(blanks & l & rest' & -> & Hb & Hl & ->) | (Hall & ->)].
      * left. exists (line :: blanks), l, rest'.
        split; [done |]. split; [by constructor | done].
      * right. split; [by constructor | done].
Qed.

(** X16. [get_operation] returns [True] when the first line that strips to
    "1" or "2" strips to "1" and [False] when it strips to "2", printing one
    error for every line before it; when no line strips to either it ends
    with [EOFError]. *)
Theorem get_operation_first_choice (stdin : list str) :
  (∃ others line rest (encrypt : bool),
     stdin = others ++ line :: rest
     ∧ Forall (λ l, strip l ≠ lit "1" ∧ strip l ≠ lit "2") others
     ∧ strip line = (if encrypt then lit "1" else lit "2")
     ∧ get_operation stdin
       = (flat_map (λ _, [prompt_operation; err_operation]) others
            ++ [prompt_operation],
          Some (encrypt, rest)))
  ∨ (Forall (λ l, strip l ≠ lit "1" ∧ strip l ≠ lit "2") stdin
     ∧ get_operation stdin
       = (flat_map (λ _, [prompt_operation; err_operation]) stdin
            ++ [prompt_operation], None)).
Proof.
  induction stdin as [|line rest IH]; simpl.
  - right. by split.
  - case_decide as H1; [left; by exists [], line, rest, true |].
    case_decide as H2; [left; by exists [], line, rest, false |].
    destruct IH as [(others & l & rest' & b & -> & Ho & Hl & ->) | (Hall & ->)].
    + left. exists (line :: others), l, rest', b.
      split; [done |]. split; [by constructor | done].
    + right. split; [by constructor | done].
Qed.

(** X17. Whatever [int()] does, [select_cipher] prints the menu and returns
    the number read from the first line that [int()] accepts with a value
    from 1 to 4, so its result is one of 1, 2, 3, 4; every line before it
    gets the error for a number out of range or the error for a line that
    is no number; when no line qualifies it ends with [EOFError]. *)
Theorem select_cipher_in_range (py_int : str → option Z) (stdin : list str) :
  let refused l := ∀ n, py_int l = Some n → ¬ (1 ≤ n ≤ 4) in
  let errors l :=
    [prompt_choice;
     match py_int l with
     | Some _ => err_choice_range
     | None => err_choice_number
     end] in
  let menu :=
    [menu_title; menu_caesar; menu_vigenere; menu_atbash; menu_exit] in
  (∃ others line rest choice,
     stdin = others ++ line :: rest
     ∧ Forall refused others
     ∧ py_int line = Some choice ∧ 1 ≤ choice ≤ 4
     ∧ select_cipher py_int stdin
       = (menu ++ flat_map errors others ++ [prompt_choice],
          Some (choice, rest)))
  ∨ (Forall refused stdin
     ∧ select_cipher py_int stdin
       = (menu ++ flat_map errors stdin ++ [prompt_choice], None)).
Proof.
  intros refused errors menu. unfold select_cipher.
  induction stdin as [|line rest IH]; simpl.
  - right. by split.
  - destruct (py_int line) as [choice|] eqn:Hint.
    + case_decide as Hrange.
      * left. by exists [], line, rest, choice.
      * assert (refused line) as Hrefused
          by (intros n Hn; congruence).
        destruct (select_cipher_loop py_int rest) as [out r].
        destruct IH as [(others & l & rest' & ch & -> & Ho & Hl & Hch & IH)
                       | (Hall & IH)]; injection IH as -> ->.
        -- left. exists (line :: others), l, rest', ch.
           split; [done |]. split; [by constructor |].
           split; [done |]. split; [done |].
           simpl. by rewrite ?Hint.
        -- right. split; [by constructor |].
           simpl. by rewrite ?Hint.
    + assert (refused line) as Hrefused
        by (intros n Hn; congruence).
      destruct (select_cipher_loop py_int rest) as [out r].
      destruct IH as [(others & l & rest' & ch & -> & Ho & Hl & Hch & IH)
                     | (Hall & IH)]; injection IH as -> ->.
      * left. exists (line :: others), l, rest', ch.
        split; [done |]. split; [by constructor |].
        split; [done |]. split; [done |].
        simpl. by rewrite ?Hint.
      * right. split; [by constructor |].
        simpl. by rewrite ?Hint.
Qed.

(** X18. Whatever [os.path.exists] answers, [get_alphabet_file] returns the
    first line whose stripped form is a path that exists, stripped; every
    line before it gets the error that names its stripped form; when no
    line qualifies it ends with [EOFError]. *)
Theorem get_alphabet_file_exists
    (path_exists : str → bool) (stdin : list str) :
  let errors l := [prompt_alphabet_file; err_file_missing (strip l)] in
  (∃ others line rest,
     stdin = others ++ line :: rest
     ∧ Forall (λ l, path_exists (strip l) = false) others
     ∧ path_exists (strip line) = true
     ∧ get_alphabet_file path_exists stdin
       = (flat_map errors others ++ [prompt_alphabet_file],
          Some (strip line, rest)))
  ∨ (Forall (λ l, path_exists (strip l) = false) stdin
     ∧ get_alphabet_file path_exists stdin
       = (flat_map errors stdin ++ [prompt_alphabet_file], None)).
Proof.
  intros errors. induction stdin as [|line rest IH]; simpl.
  - right. by split.
  - destruct (path_exists (strip line)) eqn:Hline.
    + left. by exists [], line, rest.
    + destruct IH as [(others & l & rest' & -> & Ho & Hl & ->) | (Hall & ->)].
      * left. exists (line :: others), l, rest'.
        split; [done |]. split; [by constructor | done].
      * right. split; [by constructor | done].
Qed.

Lemma get_key_int_first (py_int : str → option Z) (stdin : list str) :
  (∃ others line rest key,
     stdin = others ++ line :: rest
     ∧ Forall (λ l, py_int l = None) others ∧ py_int line = Some key
     ∧ get_key_int py_int stdin
       = (flat_map (λ _, [prompt_key_int; err_key_int]) others
            ++ [prompt_key_int],
          Some (KeyInt key, rest)))
  ∨ (Forall (λ l, py_int l = None) stdin
     ∧ get_key_int py_int stdin
       = (flat_map (λ _, [prompt_key_int; err_key_int]) stdin
            ++ [prompt_key_int], None)).
Proof.
  induction stdin as [|line rest IH]; simpl.
  - right. by split.
  - destruct (py_int line) as [key|] eqn:Hint.
    + left. by exists [], line, rest, key.
    + destruct IH as [(others & l & rest' & k & -> & Ho & Hl & ->)
                     | (Hall & ->)].
      * left. exists (line :: others), l, rest', k.
        split; [done |]. split; [by constructor | done].
      * right. split; [by constructor | done].
Qed.

Lemma get_key_str_first (encrypt : bool) (stdin : list str) :
  (∃ blanks line rest,
     stdin = blanks ++ line :: rest
     ∧ Forall blank blanks ∧ strip line ≠ []
     ∧ get_key_str encrypt stdin
       = (flat_map (λ _, [prompt_key_str encrypt; err_key_empty]) blanks
            ++ [prompt_key_str encrypt],
          Some (KeyStr (strip line), rest)))
  ∨ (Forall blank stdin
     ∧ get_key_str encrypt stdin
       = (flat_map (λ _, [prompt_key_str encrypt; err_key_empty]) stdin
            ++ [prompt_key_str encrypt], None)).
Proof.
  induction stdin as [|line rest IH]; simpl.
  - right. by split.
  - case_decide as Hline.
    + left. by exists [], line, rest.
    + assert (blank line) as Hblank
        by (unfold blank; by destruct (decide (strip line = []))).
      destruct IH as [(blanks & l & rest' & -> & Hb & Hl & ->) | (Hall & ->)].
      * left. exists (line :: blanks), l, rest'.
        split; [done |]. split; [by constructor | done].
      * right. split; [by constructor | done].
Qed.

(** X19. [get_key] gives each cipher the key it takes. For Caesar
    ([cipher_type] 1) it returns the integer of the first line that [int()]
    accepts; for Vigenere (2) the first line that is not blank, stripped, so
    never the empty string; for every other [cipher_type] it returns [None]
    at once, printing nothing and reading nothing. It ends with [EOFError]
    only for 1 and 2, when no line qualifies. *)
Theorem get_key_kinds
    (py_int : str → option Z) (cipher_type : Z) (encrypt : bool)
    (stdin : list str) :
  match get_key py_int cipher_type encrypt stdin with
  | (_, Some (KeyInt key, rest)) =>
      cipher_type = 1
      ∧ ∃ others line,
          stdin = others ++ line :: rest
          ∧ Forall (λ l, py_int l = None) others ∧ py_int line = Some key
  | (_, Some (KeyStr key, rest)) =>
      cipher_type = 2 ∧ key ≠ []
      ∧ ∃ blanks line,
          stdin = blanks ++ line :: rest
          ∧ Forall blank blanks ∧ key = strip line
  | (out, Some (KeyNone, rest)) =>
      cipher_type ≠ 1 ∧ cipher_type ≠ 2 ∧ out = [] ∧ rest = stdin
  | (_, None) =>
      (cipher_type = 1 ∧ Forall (λ l, py_int l = None) stdin)
      ∨ (cipher_type = 2 ∧ Forall blank stdin)
  end.
Proof.
  unfold get_key.
  case_decide as H1.
  - destruct (get_key_int_first py_int stdin)
      as [(others & line & rest & key & -> & Ho & Hl & ->) | (Hall & ->)].
    + split; [done |]. by exists others, line.
    + by left.
  - case_decide as H2.
    + destruct (get_key_str_first encrypt stdin)
        as [(blanks & line & rest & -> & Hb & Hl & ->) | (Hall & ->)].
      * split; [done |]. split; [done |]. by exists blanks, line.
      * by right.
    + by case_decide.
Qed.

Lemma strip_has_letter (line : str) :
  strip line ≠ [] → ∃ c, c ∈ strip line ∧ c ≠ space.
Proof.
  intros Hne. destruct (strip line) as [|c s] eqn:Hs; [done |].
  exists c. split; [by left |].
  intros ->. by pose proof (strip_head line space ltac:(by rewrite Hs)).
Qed.

Lemma vigenere_cipher_lettered_key (text key alphabet : str) (encrypt : bool) :
  (∃ c, c ∈ key ∧ c ≠ space) →
  (∃ out, vigenere_cipher text key alphabet encrypt = Return out)
  ∨ (∃ c, vigenere_cipher text key alphabet encrypt
          = Raise (AlphabetError, msg_char_not_found c)).
Proof.
  intros (k & Hk & Hns). unfold vigenere_cipher.
  destruct (validate_text_cases text alphabet)
    as [Hok | (pre & c & post & _ & _ & _ & _ & Hraise)].
  2: { right. exists c. by rewrite Hraise. }
  pose proof (proj1 (validate_text_valid _ _) Hok) as Hv.
  rewrite Hok, bind_Return.
  destruct (validate_text_cases key alphabet)
    as [Hkok | (pre & c & post & _ & _ & _ & _ & Hraise)].
  2: { right. exists c. by rewrite Hraise. }
  pose proof (proj1 (validate_text_valid _ _) Hkok) as Hkv.
  rewrite Hkok, bind_Return.
  rewrite decide_False by (by apply (elem_of_nonempty _ k)).
  left. cbv zeta. rewrite vigenere_loop_translate.
  destruct (translate_total
              (vigenere_step (remove_spaces key) alphabet encrypt
                 (len alphabet)) text alphabet Hv)
    as (out & -> & _); [| by exists out].
  intros i x Hx. apply vigenere_step_total; [| | done].
  - apply (elem_of_nonempty _ k). by apply list_elem_of_filter.
  - by apply remove_spaces_in_alphabet.
Qed.

(** X20. A key that [get_key] hands out for Vigenere is never rejected as
    empty and never divides by zero: it holds a character other than the
    space, and with it [vigenere_cipher], on every text and alphabet and in
    either mode, returns a text or raises the [AlphabetError] of a
    character. *)
Theorem console_vigenere_key
    (py_int : str → option Z) (encrypt : bool) (stdin : list str)
    (out : list printed) (value : key_value) (rest : list str) :
  get_key py_int 2 encrypt stdin = (out, Some (value, rest)) →
  ∃ key,
    value = KeyStr key
    ∧ (∃ c, c ∈ key ∧ c ≠ space)
    ∧ ∀ (text alphabet : str) (mode : bool),
        (∃ result, vigenere_cipher text key alphabet mode = Return result)
        ∨ (∃ c, vigenere_cipher text key alphabet mode
                = Raise (AlphabetError, msg_char_not_found c)).
Proof.
  unfold get_key. simpl.
  destruct (get_key_str_first encrypt stdin)
    as [(blanks & line & rest' & -> & Hb & Hl & ->) | (Hall & ->)]; [| done].
  intros [= <- <- <-]. exists (strip line).
  pose proof (strip_has_letter line Hl) as Hletter.
  split; [done |]. split; [done |].
  intros text alphabet mode. by apply vigenere_cipher_lettered_key.
Qed.

(** X20 at a blank line followed by the line " b a ": the key is "b a". *)
Lemma console_vigenere_key_witness :
  (∃ result,
     vigenere_cipher (lit "ab cd") (lit "b a") (lit "abcdef") true
     = Return result)
  ∨ (∃ c, vigenere_cipher (lit "ab cd") (lit "b a") (lit "abcdef") true
          = Raise (AlphabetError, msg_char_not_found c)).
Proof.
  destruct (console_vigenere_key (λ _, None) true
              [lit "  "; lit " b a "; lit "next"]
              [prompt_key_str true; err_key_empty; prompt_key_str true]
              (KeyStr (lit "b a")) [lit "next"])
    as (key & Hkey & _ & Hcipher).
  - by vm_compute.
  - injection Hkey as <-. apply Hcipher.
Defined.
